(** * Course-progress aggregation: [getUserEnrolments] and the order resolver

    A shallow embedding of [src/domain/services/get-user-enrolments.ts]:
    the Cypher query the service sends to the graph store is evaluated over
    an explicit property graph, and the TypeScript around it (the empty-result
    test and the loop that hands every course to [sortCourse]) is written as a
    function into an error monad. *)

From stdpp Require Import base tactics option list strings gmap fin_maps
  relations sorting.

(** ** The property graph held by the store *)

(** A node carries labels and a property map; property values read by the
    query ([id], [name], [givenName], [slug], [title], [createdAt],
    [completedAt]) are kept as strings. *)
Record Node := mkNode {
  nid : nat;
  labels : list string;
  props : gmap string string;
}.

Record Rel := mkRel {
  src : nat;
  rtype : string;
  dst : nat;
}.

Record Graph := mkGraph {
  nodes : list Node;
  rels : list Rel;
}.

(** ** The records the query projects *)

(** A Cypher value that may be [null] is an [option]. *)
Record User := mkUser {
  u_id : option string;
  u_name : option string;
  u_givenName : option string;
}.

(** [prev { .slug, .title, link: ... }] *)
Record Stub := mkStub {
  s_slug : option string;
  s_title : option string;
  s_link : option string;
}.

(** [q { .id, .slug }] *)
Record Question := mkQuestion {
  q_id : option string;
  q_slug : option string;
}.

(** [l { .*, completed, link, previous, next, questions }] *)
Record Lesson := mkLesson {
  l_props : gmap string string;
  l_completed : bool;
  l_link : option string;
  l_previous : option Stub;
  l_next : option Stub;
  l_questions : list Question;
}.

(** [m { .*, link, completed, lessons }] *)
Record Module_ := mkModule {
  m_props : gmap string string;
  m_link : option string;
  m_completed : bool;
  m_lessons : list Lesson;
}.

(** [c { .*, createdAt, completed, completedAt, modules }] *)
Record Course := mkCourse {
  c_props : gmap string string;
  c_createdAt : option string;
  c_completed : option bool;
  c_completedAt : option string;
  c_modules : list Module_;
}.

Global Instance User_eq_dec : EqDecision User.
Proof. solve_decision. Defined.

Global Instance Stub_eq_dec : EqDecision Stub.
Proof. solve_decision. Defined.

Global Instance Question_eq_dec : EqDecision Question.
Proof. solve_decision. Defined.

Global Instance Lesson_eq_dec : EqDecision Lesson.
Proof. solve_decision. Defined.

Global Instance Module_eq_dec : EqDecision Module_.
Proof. solve_decision. Defined.

Global Instance Course_eq_dec : EqDecision Course.
Proof. solve_decision. Defined.

(** ** Faults and the error monad of the service *)

(** The data-integrity fault of the order resolver names the course by its
    [slug] property. *)
Inductive Fault :=
  | DataIntegrity (course : option string).

Inductive result (A : Type) :=
  | Ok (a : A)
  | Err (f : Fault).

Arguments Ok {A} a.
Arguments Err {A} f.

Definition rbind {A B} (r : result A) (k : A → result B) : result B :=
  match r with
  | Ok a => k a
  | Err f => Err f
  end.

Fixpoint rmapM {A B} (f : A → result B) (l : list A) : result (list B) :=
  match l with
  | [] => Ok []
  | x :: l' => rbind (f x) (λ y, rbind (rmapM f l') (λ ys, Ok (y :: ys)))
  end.

(** ** Status labels *)

(** Modelled from the spec: the constants [STATUS_AVAILABLE],
    [STATUS_COMPLETED] and [STATUS_ENROLLED] of [domain/model/enrolment],
    which is not among the sources; the spec gives the three labels as
    [available], [enrolled] and [completed]. *)
Definition STATUS_AVAILABLE : string := "available".

(** Modelled from the spec: [STATUS_COMPLETED] of [domain/model/enrolment]. *)
Definition STATUS_COMPLETED : string := "completed".

(** Modelled from the spec: [STATUS_ENROLLED] of [domain/model/enrolment]. *)
Definition STATUS_ENROLLED : string := "enrolled".

(** ** Evaluation of the query's patterns *)

Section Query.
Variable g : Graph.

Definition hasLabel (n : Node) (lbl : string) : bool :=
  bool_decide (lbl ∈ labels n).

(** [n.key], [null] when the property is not set. *)
Definition prop (n : Node) (key : string) : option string :=
  props n !! key.

(** Cypher's [+] on strings: [null] as soon as one operand is [null]. *)
Definition cat (a b : option string) : option string :=
  match a, b with
  | Some x, Some y => Some (x +:+ y)
  | _, _ => None
  end.

Definition nodeById (i : nat) : option Node :=
  head (filter (λ n, nid n = i) (nodes g)).

(** [(a)-[:ty]->(b)] with [a] bound: one match per relationship. *)
Definition outgoing (a : Node) (ty : string) : list Node :=
  r ← filter (λ r, src r = nid a ∧ rtype r = ty) (rels g);
  option_list (nodeById (dst r)).

(** [(a)<-[:ty]-(b)] with [a] bound. *)
Definition incoming (a : Node) (ty : string) : list Node :=
  r ← filter (λ r, dst r = nid a ∧ rtype r = ty) (rels g);
  option_list (nodeById (src r)).

(** [exists((a)-[:ty]->(b))] with both ends bound; a [null] end matches
    nothing. *)
Definition existsRel (a : option Node) (ty : string) (b : Node) : bool :=
  match a with
  | None => false
  | Some a =>
      bool_decide (Exists (λ r, src r = nid a ∧ rtype r = ty ∧ dst r = nid b)
                          (rels g))
  end.

(** [MATCH (u:User {id: $id})] *)
Definition matchUser (id : string) : list Node :=
  filter (λ n, "User" ∈ labels n ∧ props n !! "id" = Some id) (nodes g).

(** [MATCH (c:Course)] *)
Definition matchCourse : list Node :=
  filter (λ n, "Course" ∈ labels n) (nodes g).

(** [OPTIONAL MATCH (u)-[:HAS_ENROLMENT]->(e)-[:FOR_COURSE]->(c)]: the
    enrolments found, or a single [null] binding when there is none. *)
Definition enrolmentMatches (u c : Node) : list Node :=
  e ← outgoing u "HAS_ENROLMENT";
  _ ← filter (λ r, src r = nid e ∧ rtype r = "FOR_COURSE" ∧ dst r = nid c)
             (rels g);
  [e].

Definition optionalEnrolment (u c : Node) : list (option Node) :=
  match enrolmentMatches u c with
  | [] => [None]
  | es => Some <$> es
  end.

(** [(l)<-[:NEXT_LESSON]-(prev)<-[:HAS_LESSON]-(pm)]: the pairs
    [(prev, pm)] in the order the store returns them. *)
Definition previousMatches (l : Node) : list (Node * Node) :=
  prev ← incoming l "NEXT_LESSON";
  pm ← incoming prev "HAS_LESSON";
  [(prev, pm)].

(** [(l)-[:NEXT_LESSON]->(next)<-[:HAS_LESSON]-(nm)] *)
Definition nextMatches (l : Node) : list (Node * Node) :=
  next ← outgoing l "NEXT_LESSON";
  nm ← incoming next "HAS_LESSON";
  [(next, nm)].

(** [x { .slug, .title, link: '/courses/'+ c.slug +'/'+ xm.slug +'/'+ x.slug }] *)
Definition stubOf (c : Node) (p : Node * Node) : Stub :=
  {| s_slug := prop p.1 "slug";
     s_title := prop p.1 "title";
     s_link := cat (cat (cat (cat (cat (Some "/courses/") (prop c "slug"))
                                  (Some "/")) (prop p.2 "slug"))
                        (Some "/")) (prop p.1 "slug") |}.

Definition questionOf (q : Node) : Question :=
  {| q_id := prop q "id"; q_slug := prop q "slug" |}.

(** The lesson projection of lines 28-35; [[...][0]] is the first element
    of the comprehension, [null] when it is empty. *)
Definition lessonOf (c m : Node) (e : option Node) (l : Node) : Lesson :=
  {| l_props := props l;
     l_completed := existsRel e "COMPLETED_LESSON" l;
     l_link := cat (cat (cat (cat (cat (Some "/courses/") (prop c "slug"))
                                  (Some "/")) (prop m "slug"))
                        (Some "/")) (prop l "slug");
     l_previous := head (stubOf c <$> previousMatches l);
     l_next := head (stubOf c <$> nextMatches l);
     l_questions := questionOf <$> outgoing l "HAS_QUESTION" |}.

(** The module projection of lines 24-36. *)
Definition moduleOf (c : Node) (e : option Node) (m : Node) : Module_ :=
  {| m_props := props m;
     m_link := cat (cat (cat (Some "/courses/") (prop c "slug")) (Some "/"))
                   (prop m "slug");
     m_completed := existsRel e "COMPLETED_MODULE" m;
     m_lessons := lessonOf c m e <$> outgoing m "HAS_LESSON" |}.

(** The course projection of lines 19-37; a label test on [null] is
    [null]. *)
Definition courseOf (c : Node) (e : option Node) : Course :=
  {| c_props := props c;
     c_createdAt := e ≫= λ e, prop e "createdAt";
     c_completed := (λ e, hasLabel e "CompletedEnrolment") <$> e;
     c_completedAt := e ≫= λ e, prop e "completedAt";
     c_modules := moduleOf c e <$> outgoing c "HAS_MODULE" |}.

(** [u { .id, .name, .givenName }] *)
Definition userOf (u : Node) : User :=
  {| u_id := prop u "id"; u_name := prop u "name";
     u_givenName := prop u "givenName" |}.

(** The [CASE] expression of lines 38-41. *)
Definition statusOf (e : option Node) : string :=
  match e with
  | None => STATUS_AVAILABLE
  | Some e =>
      if hasLabel e "CompletedEnrolment" then STATUS_COMPLETED
      else STATUS_ENROLLED
  end.

(** The bindings [(u, c, e)] after the three [MATCH] clauses. *)
Definition bindings (id : string) : list (Node * Node * option Node) :=
  u ← matchUser id;
  c ← matchCourse;
  e ← optionalEnrolment u c;
  [(u, c, e)].

(** The rows [user, course, status] of the first [WITH]. *)
Definition rows (id : string) : list ((User * string) * Course) :=
  (λ b : Node * Node * option Node,
     ((userOf b.1.1, statusOf b.2), courseOf b.1.2 b.2)) <$> bindings id.
End Query.

(** Grouping of a [WITH k, collect(v)]: one row per distinct key, with the
    values of that key in row order. *)
Definition collect {K V} `{EqDecision K} (rs : list (K * V)) : list (K * list V) :=
  (λ k, (k, (filter (λ r, r.1 = k) rs).*2)) <$> remove_dups (rs.*1).

(** [apoc.map.fromPairs]: a later pair replaces an earlier one with the same
    key. *)
Definition fromPairs {V} (pairs : list (string * V)) : gmap string V :=
  foldl (λ m p, <[p.1 := p.2]> m) ∅ pairs.

(** [read] of [modules/neo4j] applied to the query of lines 10-48: the two
    grouping [WITH] clauses and the [RETURN], one record per user with the
    [enrolments] map of that user. *)
Definition read (g : Graph) (id : string)
  : list (User * gmap string (list Course)) :=
  let byStatus := collect (rows g id) in
  let byUser :=
    collect ((λ r : (User * string) * list Course, (r.1.1, (r.1.2, r.2)))
               <$> byStatus) in
  (λ r : User * list (string * list Course), (r.1, fromPairs r.2)) <$> byUser.

(** ** The order resolver *)

(** [sortCourse] lives in [utils], which is not among the sources.  The
    definitions of this part follow section 4.2 of the specification step by
    step; the fault is the data-integrity error of section 7, raised as an
    exception (the call site discards the return value). *)

(** Modelled from the spec: step 1 of [sortCourse], the lessons of all
    modules as one candidate list. *)
Definition flatten (c : Course) : list Lesson :=
  m ← c_modules c; m_lessons m.

(** Modelled from the spec: the back-reference of step 1 of [sortCourse].
    The owning module of a lesson is the module whose lessons carry the
    lesson's link (the link embeds both slugs). *)
Definition owns (m : Module_) (l : Lesson) : Prop :=
  l_link l ∈ l_link <$> m_lessons m.

Global Instance owns_dec m l : Decision (owns m l).
Proof. unfold owns. apply _. Defined.

(** Modelled from the spec: step 2 of [sortCourse], the lessons with no
    [previous] stub. *)
Definition heads (fl : list Lesson) : list Lesson :=
  filter (λ l, l_previous l = None) fl.

(** Modelled from the spec: the lesson a stub of [sortCourse]'s walk points
    at, the one candidate with that link. *)
Definition findByLink (k : option string) (fl : list Lesson) : option Lesson :=
  match filter (λ l, l_link l = k) fl with
  | [l] => Some l
  | _ => None
  end.

(** Modelled from the spec: the outcomes of the walk of [sortCourse]. *)
Inductive Walk :=
  | Chain (ch : list Lesson)
  | Broken
  | OutOfFuel.

(** Modelled from the spec: step 3 of [sortCourse].  Follow [next] from the
    head; the position of a lesson in the chain is its sequence index.  A stub that points at a lesson already
    visited closes a cycle, a stub that points at no single candidate is
    dangling. *)
Fixpoint walk (fuel : nat) (fl : list Lesson) (visited : list (option string))
    (cur : Lesson) : Walk :=
  match fuel with
  | 0 => OutOfFuel
  | S fuel' =>
      match l_next cur with
      | None => Chain [cur]
      | Some s =>
          if decide (s_link s ∈ l_link cur :: visited) then Broken
          else match findByLink (s_link s) fl with
               | None => Broken
               | Some nxt =>
                   match walk fuel' fl (l_link cur :: visited) nxt with
                   | Chain ch => Chain (cur :: ch)
                   | w => w
                   end
               end
      end
  end.

(** Modelled from the spec: step 4 of [sortCourse], the position of a
    module's earliest lesson in the flattened order. *)
Definition earliest (ch : list Lesson) (m : Module_) : nat :=
  default (length ch) (fst <$> list_find (owns m) ch).

(** Modelled from the spec: the stable ordering of step 4 of [sortCourse],
    an insertion sort by a numeric key. *)
Fixpoint insertBy {A} (key : A → nat) (a : A) (l : list A) : list A :=
  match l with
  | [] => [a]
  | x :: l' => if decide (key x < key a) then x :: insertBy key a l'
               else a :: x :: l'
  end.

(** Modelled from the spec: the sort of step 4 of [sortCourse]. *)
Definition sortBy {A} (key : A → nat) (l : list A) : list A :=
  foldr (insertBy key) [] l.

(** Modelled from the spec: step 5 of [sortCourse], a module's lessons
    become the subsequence of the flattened order that belongs to it. *)
Definition setLessons (ch : list Lesson) (m : Module_) : Module_ :=
  {| m_props := m_props m; m_link := m_link m; m_completed := m_completed m;
     m_lessons := filter (owns m) ch |}.

(** Modelled from the spec: the modules of [sortCourse] that take part in
    the chain. *)
Definition hasLessons (m : Module_) : Prop := m_lessons m ≠ [].

Global Instance hasLessons_dec m : Decision (hasLessons m).
Proof. unfold hasLessons. apply _. Defined.

(** Modelled from the spec: steps 4 and 5 of [sortCourse] together, modules
    with lessons in the order of their earliest lesson, then the modules
    without lessons in their original order. *)
Definition orderModules (ch : list Lesson) (ms : list Module_) : list Module_ :=
  (setLessons ch <$> sortBy (earliest ch) (filter hasLessons ms))
    ++ filter (λ m, ¬ hasLessons m) ms.

(** Modelled from the spec: the reassignment of [modules] that ends step 5
    of [sortCourse]. *)
Definition setModules (c : Course) (ms : list Module_) : Course :=
  {| c_props := c_props c; c_createdAt := c_createdAt c;
     c_completed := c_completed c; c_completedAt := c_completedAt c;
     c_modules := ms |}.

(** Modelled from the spec: the flattened order of steps 2 and 3 of
    [sortCourse], or the fault of section 7: no head or several heads, a
    cycle or a dangling stub on the walk, or lessons the walk never reaches
    (they would be dropped by step 5). *)
Definition lessonOrder (c : Course) : result (list Lesson) :=
  let fl := flatten c in
  match heads fl with
  | [h] =>
      match walk (length fl) fl [] h with
      | Chain ch =>
          if decide (length ch = length fl) then Ok ch
          else Err (DataIntegrity (c_props c !! "slug"))
      | _ => Err (DataIntegrity (c_props c !! "slug"))
      end
  | _ => Err (DataIntegrity (c_props c !! "slug"))
  end.

(** Modelled from the spec: [sortCourse] of [utils].  A course with no
    lesson at all is returned unchanged. *)
Definition sortCourse (c : Course) : result Course :=
  match flatten c with
  | [] => Ok c
  | _ => rbind (lessonOrder c) (λ ch, Ok (setModules c (orderModules ch (c_modules c))))
  end.

(** ** The service *)

(** [EnrolmentsByStatus]: both fields are missing in the empty object. *)
Record EnrolmentsByStatus := mkEnrolmentsByStatus {
  user : option User;
  enrolments : option (gmap string (list Course));
}.

(** The loop of lines 58-62: every course of every status is handed to
    [sortCourse]; nothing catches what it throws. *)
Definition sortEnrolments (m : gmap string (list Course))
  : result (gmap string (list Course)) :=
  rbind (rmapM (λ kv : string * list Course,
                  rbind (rmapM sortCourse kv.2) (λ cs, Ok (kv.1, cs)))
               (map_to_list m))
        (λ l, Ok (list_to_map l)).

(** Lines 50-67: the empty object when the query returns no record,
    otherwise the first record with its courses sorted. *)
Definition getUserEnrolments (g : Graph) (id : string) : result EnrolmentsByStatus :=
  match read g id with
  | [] => Ok {| user := None; enrolments := None |}
  | r :: _ =>
      rbind (sortEnrolments r.2)
            (λ m, Ok {| user := Some r.1; enrolments := Some m |})
  end.

(** ** Vocabulary for the statements about the resolver *)

(** [ch] follows the [next] stubs: every lesson points at its successor in
    the list and the last one has no [next]. *)
Fixpoint linked (ch : list Lesson) : Prop :=
  match ch with
  | [] => False
  | x :: r =>
      match r with
      | [] => l_next x = None
      | y :: _ => s_link <$> l_next x = Some (l_link y) ∧ linked r
      end
  end.

(** [ch] follows the [previous] stubs: every lesson after [p] points back at
    its predecessor in the list. *)
Fixpoint backLinked (p : Lesson) (ch : list Lesson) : Prop :=
  match ch with
  | [] => True
  | y :: r => s_link <$> l_previous y = Some (l_link p) ∧ backLinked y r
  end.

(** The lessons of course [c] form the single chain [ch]. *)
Definition chainOf (c : Course) (ch : list Lesson) : Prop :=
  ch ≡ₚ flatten c
  ∧ NoDup (l_link <$> ch)
  ∧ linked ch
  ∧ match ch with
    | [] => False
    | h :: r => l_previous h = None ∧ backLinked h r
    end.

(** The ordering relation among the candidates [fl], read off the [next]
    stubs. *)
Definition nextRel (fl : list Lesson) (x y : Lesson) : Prop :=
  x ∈ fl ∧ y ∈ fl ∧ s_link <$> l_next x = Some (l_link y).

(** Every module's lessons are consecutive in the chain [ch]. *)
Definition contiguous (ms : list Module_) (ch : list Lesson) : Prop :=
  ∀ m i j k x y z,
    m ∈ ms → ch !! i = Some x → ch !! j = Some y → ch !! k = Some z →
    i ≤ j ≤ k → owns m x → owns m z → owns m y.

(** [x] comes before [y] in [ch]. *)
Definition before (ch : list Lesson) (x y : Lesson) : Prop :=
  ∃ i j, ch !! i = Some x ∧ ch !! j = Some y ∧ i < j.

(** The order a numeric key puts on its arguments. *)
Definition byKey {A} (key : A → nat) (a b : A) : Prop := key a ≤ key b.

(** ** Stores used as concrete inputs *)

Module Store.
Definition node (i : nat) (lbl slug : string) : Node :=
  mkNode i [lbl] {[ "slug" := slug; "title" := slug ]}.

Definition person (i : nat) (id : string) : Node :=
  mkNode i ["User"] {[ "id" := id; "name" := id ]}.

Definition u1 : Node := person 1 "u1".
Definition c1 : Node := node 10 "Course" "c1".
Definition c2 : Node := node 11 "Course" "c2".
Definition m1 : Node := node 20 "Module" "m1".
Definition m2 : Node := node 21 "Module" "m2".
Definition la : Node := node 30 "Lesson" "a".
Definition lb : Node := node 31 "Lesson" "b".
Definition lc : Node := node 32 "Lesson" "c".
Definition ld : Node := node 33 "Lesson" "d".
Definition lx : Node := node 34 "Lesson" "x".
Definition ly : Node := node 35 "Lesson" "y".
Definition e1 : Node := mkNode 40 ["Enrolment"] ∅.

(** One course, modules m1 = [a, b] and m2 = [c, d], chain a, b, c, d; the
    store lists modules and lessons in another order.  User u1 is enrolled
    (not completed) and has completed lesson b. *)
Definition chained : Graph := mkGraph
  [u1; c1; m1; m2; la; lb; lc; ld; e1]
  [mkRel 10 "HAS_MODULE" 21; mkRel 10 "HAS_MODULE" 20;
   mkRel 20 "HAS_LESSON" 31; mkRel 20 "HAS_LESSON" 30;
   mkRel 21 "HAS_LESSON" 33; mkRel 21 "HAS_LESSON" 32;
   mkRel 30 "NEXT_LESSON" 31; mkRel 31 "NEXT_LESSON" 32;
   mkRel 32 "NEXT_LESSON" 33;
   mkRel 1 "HAS_ENROLMENT" 40; mkRel 40 "FOR_COURSE" 10;
   mkRel 40 "COMPLETED_LESSON" 31].

(** Two courses; the only [NEXT_LESSON] edge leaves lesson a of course c1
    and enters lesson x, which belongs to module m2 of course c2. *)
Definition foreign : Graph := mkGraph
  [u1; c1; c2; m1; m2; la; lx]
  [mkRel 10 "HAS_MODULE" 20; mkRel 11 "HAS_MODULE" 21;
   mkRel 20 "HAS_LESSON" 30; mkRel 21 "HAS_LESSON" 34;
   mkRel 30 "NEXT_LESSON" 34].

(** Lesson a has two outgoing and lesson d two incoming [NEXT_LESSON]
    edges. *)
Definition branching : Graph := mkGraph
  [u1; c1; m1; la; lb; lc; ld]
  [mkRel 10 "HAS_MODULE" 20;
   mkRel 20 "HAS_LESSON" 30; mkRel 20 "HAS_LESSON" 31;
   mkRel 20 "HAS_LESSON" 32; mkRel 20 "HAS_LESSON" 33;
   mkRel 30 "NEXT_LESSON" 31; mkRel 30 "NEXT_LESSON" 32;
   mkRel 31 "NEXT_LESSON" 33; mkRel 32 "NEXT_LESSON" 33].

(** Two well-formed courses and a user without any enrolment. *)
Definition catalog : Graph := mkGraph
  [u1; c1; c2; m1; m2; la; lb; lx]
  [mkRel 10 "HAS_MODULE" 20; mkRel 11 "HAS_MODULE" 21;
   mkRel 20 "HAS_LESSON" 31; mkRel 20 "HAS_LESSON" 30;
   mkRel 21 "HAS_LESSON" 34;
   mkRel 30 "NEXT_LESSON" 31].

(** A user and no course at all. *)
Definition noCatalog : Graph := mkGraph [u1] [].

(** Course c1 is the well-formed chain a, b; in course c2 the lessons x and
    y point at each other. *)
Definition cyclic : Graph := mkGraph
  [u1; c1; c2; m1; m2; la; lb; lx; ly]
  [mkRel 10 "HAS_MODULE" 20; mkRel 11 "HAS_MODULE" 21;
   mkRel 20 "HAS_LESSON" 30; mkRel 20 "HAS_LESSON" 31;
   mkRel 21 "HAS_LESSON" 34; mkRel 21 "HAS_LESSON" 35;
   mkRel 30 "NEXT_LESSON" 31;
   mkRel 34 "NEXT_LESSON" 35; mkRel 35 "NEXT_LESSON" 34].

(** One course with the lessons a, b, c: a leads to b, b to c, and c back
    to b. *)
Definition lasso : Graph := mkGraph
  [u1; c1; m1; la; lb; lc]
  [mkRel 10 "HAS_MODULE" 20;
   mkRel 20 "HAS_LESSON" 30; mkRel 20 "HAS_LESSON" 31;
   mkRel 20 "HAS_LESSON" 32;
   mkRel 30 "NEXT_LESSON" 31; mkRel 31 "NEXT_LESSON" 32;
   mkRel 32 "NEXT_LESSON" 31].

(** The course of [chained] as the query returns it, and its chain. *)
Definition chainedCourse : Course := courseOf chained c1 (Some e1).

Definition chainedOrder : list Lesson :=
  [lessonOf chained c1 m1 (Some e1) la; lessonOf chained c1 m1 (Some e1) lb;
   lessonOf chained c1 m2 (Some e1) lc; lessonOf chained c1 m2 (Some e1) ld].

(** The course of [lasso] as the query returns it. *)
Definition lassoCourse : Course := courseOf lasso c1 None.

(** The two courses of [cyclic] as the query returns them. *)
Definition goodCourse : Course := courseOf cyclic c1 None.

Definition badCourse : Course := courseOf cyclic c2 None.

(** A course as [sortCourse] returns it (the course itself on a fault). *)
Definition sorted (c : Course) : Course :=
  match sortCourse c with
  | Ok c' => c'
  | Err _ => c
  end.

(** The mapping the service returns for user u1 of [catalog]. *)
Definition catalogEnrolments : gmap string (list Course) :=
  {[ STATUS_AVAILABLE := [sorted (courseOf catalog c1 None);
                          sorted (courseOf catalog c2 None)] ]}.

(** One course whose chain a, b, c leaves module m1 and comes back to it:
    m1 holds a and c, m2 holds b. *)
Definition interleaved : Graph := mkGraph
  [u1; c1; m1; m2; la; lb; lc]
  [mkRel 10 "HAS_MODULE" 20; mkRel 10 "HAS_MODULE" 21;
   mkRel 20 "HAS_LESSON" 30; mkRel 20 "HAS_LESSON" 32;
   mkRel 21 "HAS_LESSON" 31;
   mkRel 30 "NEXT_LESSON" 31; mkRel 31 "NEXT_LESSON" 32].

(** The course of [interleaved] as the query returns it, and its chain. *)
Definition interleavedCourse : Course := courseOf interleaved c1 None.

Definition interleavedOrder : list Lesson :=
  [lessonOf interleaved c1 m1 None la; lessonOf interleaved c1 m2 None lb;
   lessonOf interleaved c1 m1 None lc].

(** An enrolment that carries the label of a completed enrolment. *)
Definition e2 : Node := mkNode 41 ["Enrolment"; "CompletedEnrolment"] ∅.

End Store.


(** Lesson node [n] belongs to some module of course [c]. *)
Definition inCourse (g : Graph) (c n : Node) : Prop :=
  ∃ m, m ∈ outgoing g c "HAS_MODULE" ∧ n ∈ outgoing g m "HAS_LESSON".

(** * The route handlers *)

(** What a handler can pass to [next]: the [NotFoundError] of the routes, the
    [TypeError] of a property read on [undefined], or whatever a
    collaborator throws. *)
Inductive Error :=
  | NotFoundError (message : string)
  | TypeError
  | Failure (what : string).

(** The outcome of awaiting a collaborator. *)
Inductive outcome (A : Type) :=
  | Returns (a : A)
  | Throws (e : Error).

Arguments Returns {A} a.
Arguments Throws {A} e.

(** The fields the routes read of a [CourseWithProgress] (declared in
    [domain/model/course], not among the sources): [slug] and [usecase] are
    properties, [enrolled] may be missing. *)
Record CourseWithProgress := mkCourseWithProgress {
  cp_props : gmap string string;
  cp_enrolled : option bool;
  cp_modules : list Module_;
}.

(** The fields the enrol route reads of what [enrolInCourse] returns. *)
Record Enrolment := mkEnrolment {
  en_course : CourseWithProgress;
  en_nextModule : option Module_;
}.

(** The fields the browser route reads of a sandbox. *)
Record Sandbox := mkSandbox {
  sb_scheme : option string;
  sb_host : option string;
  sb_boltPort : option string;
  sb_password : option string;
}.

(** The fields the category routes read of a [Category]. *)
Record Category := mkCategory {
  cat_slug : option string;
  cat_title : option string;
  cat_caption : option string;
  cat_courses : option (list CourseWithProgress);
}.

Record Breadcrumb := mkBreadcrumb {
  bc_link : string;
  bc_text : option string;
}.

Record Hero := mkHero {
  hero_overline : string;
  hero_title : string;
  hero_byline : string;
}.

(** A value inside a template literal: [undefined] prints as such. *)
Definition tpl (v : option string) : string := default "undefined" v.

(** [a || b] on strings. *)
Definition orElse (a : option string) (b : string) : string :=
  match a with
  | Some s => if decide (s = "") then b else s
  | None => b
  end.

(** [items.find(item => item.slug === slug)] *)
Definition findBySlug {A} (slugOf : A → option string) (slug : string)
    (items : list A) : option A :=
  head (filter (λ x, slugOf x = Some slug) items).

(** [req.params] as the module and lesson routes read it; a parameter the
    routers above do not set reads as [undefined]. *)
Record Params := mkParams {
  p_course : option string;
  p_module : option string;
  p_lesson : option string;
}.

Section Handlers.
Context {AuthUser Token Doc Grouped Categories : Type}.

(** The second argument of [res.render], entry by entry as the object
    literal is written; the module of [ModulePage] and the lesson of
    [LessonPage] are spread into the object after [classes]. *)
Inductive Locals :=
  | ModulePage (classes : string) (module : option Module_) (path : string)
      (course : CourseWithProgress) (doc : Doc)
  | LessonPage (classes : string) (lesson : option Lesson) (path : string)
      (course : CourseWithProgress) (module : option Module_) (doc : Doc)
  | BrowserPage (classes : string) (scheme host port password : option string)
  | ListPage (title : string) (slug : option string) (categories : Categories)
      (category : option Category) (courses : option (list CourseWithProgress))
      (grouped : Grouped) (hero : Hero) (ogTitle ogDescription ogImage : string)
      (breadcrumbs : list Breadcrumb).

(** The [classes] entry the view receives: in [{ classes, ...module, path,
    course, doc }] a [classes] property of the module that is spread
    replaces the entry written before it, and likewise for a lesson. *)
Definition classesOf (locals : Locals) : option string :=
  match locals with
  | ModulePage classes m _ _ _ =>
      Some (default classes (m ≫= λ m, m_props m !! "classes"))
  | LessonPage classes l _ _ _ _ =>
      Some (default classes (l ≫= λ l, l_props l !! "classes"))
  | BrowserPage classes _ _ _ _ => Some classes
  | ListPage _ _ _ _ _ _ _ _ _ _ _ => None
  end.

(** What a handler does to the outside: its answers ([next], [res.render],
    [res.redirect]), the calls that change something ([enrolInCourse],
    [createSandbox]) and what it logs. *)
Inductive Event :=
  | Next (e : Error)
  | Render (view : string) (locals : Locals)
  | Redirect (url : string)
  | EnrolInCourse (course : string)
  | CreateSandbox (usecase : string)
  | LogModule (module : option Module_)
  | LogSandboxError (e : Error).

(** A handler body: the events so far and a value or a thrown error. *)
Definition handler (A : Type) : Type := list Event * outcome A.

Definition hret {A} (a : A) : handler A := ([], Returns a).

Definition hbind {A B} (m : handler A) (k : A → handler B) : handler B :=
  match m with
  | (t, Returns a) => let r := k a in (t ++ r.1, r.2)
  | (t, Throws e) => (t, Throws e)
  end.

Definition emit (ev : Event) : handler unit := ([ev], Returns tt).

Definition throw {A} (e : Error) : handler A := ([], Throws e).

Definition await {A} (o : outcome A) : handler A := ([], o).

(** [try { m } catch (e) { h e }] *)
Definition tryCatch {A} (m : handler A) (h : Error → handler A) : handler A :=
  match m with
  | (t, Throws e) => let r := h e in (t ++ r.1, r.2)
  | ok => ok
  end.

(** [next(e)] in a handler that does not return after it.  The call runs
    the rest of the router synchronously, and on its way out the router puts
    back the [req.params] it found when the request entered it; the handler
    goes on with those ([restored]) instead of the parameters of its own
    route. *)
Definition nextAndGoOn (e : Error) (restored : Params) : handler Params :=
  ([Next e], Returns restored).

(** [x!.f] at run time: a [TypeError] when [x] is [undefined]. *)
Definition deref {A B} (x : option A) (f : A → B) : handler B :=
  match x with
  | Some a => hret (f a)
  | None => throw TypeError
  end.

Definition when (b : bool) (m : handler unit) : handler unit :=
  if b then m else hret tt.

(** [if (v) { k v }] for a string that may be missing or empty. *)
Definition whenTruthy (v : option string) (k : string → handler unit)
  : handler unit :=
  match v with
  | Some s => if decide (s = "") then hret tt else k s
  | None => hret tt
  end.

#[local] Instance handler_ret : MRet handler := @hret.

#[local] Instance handler_bind : MBind handler := λ A B k m, hbind m k.

(** What the handler did, once its body is over. *)
Definition done_ {A} (m : handler A) : list Event := m.1.

(** The answers among the events: calls of [next], [res.render] and
    [res.redirect]. *)
Definition isAnswer (ev : Event) : bool :=
  match ev with
  | Next _ | Render _ _ | Redirect _ => true
  | _ => false
  end.

Definition answers (t : list Event) : list Event :=
  filter (λ ev, isAnswer ev = true) t.

(** ** The course routes *)

Section CourseRoutes.
Variable getUser : outcome (option AuthUser).
Variable getToken : outcome Token.
Variable given_name : AuthUser → option string.
Variable getCourseWithProgress :
  string → option AuthUser → outcome CourseWithProgress.
Variable convertModuleOverview : option string → option string → outcome Doc.
Variable convertLessonOverview :
  option string → option string → option string → option string → outcome Doc.
Variable enrolInCourse : string → option AuthUser → outcome Enrolment.
Variable createSandbox : Token → string → outcome (option Sandbox).
Variable getSandboxForUseCase : Token → string → outcome (option Sandbox).

(** [GET /:course/enrol] *)
Definition getEnrol (course : string) : list Event :=
  done_ (tryCatch
    (user ← await getUser;
     token ← await getToken;
     emit (EnrolInCourse course);;
     enrolment ← await (enrolInCourse course user);
     whenTruthy (cp_props (en_course enrolment) !! "usecase")
       (λ usecase,
          tryCatch
            (emit (CreateSandbox usecase);;
             _ ← await (createSandbox token usecase); mret ())
            (λ e, emit (LogSandboxError e)));;
     let goTo :=
       orElse (en_nextModule enrolment ≫= m_link)
              ("/courses/" +:+ tpl (cp_props (en_course enrolment) !! "slug")
                 +:+ "/") in
     emit (Redirect goTo))
    (λ e, emit (Next e))).

(** [GET /:course/browser] *)
Definition getBrowser (course : string) : list Event :=
  done_ (tryCatch
    (token ← await getToken;
     user ← await getUser;
     c ← await (getCourseWithProgress course user);
     if decide (cp_enrolled c = Some false)
     then emit (Redirect ("/courses/" +:+ course))
     else
       match cp_props c !! "usecase" with
       | Some usecase =>
           if decide (usecase = "")
           then emit (Next (NotFoundError ("No use case for " +:+ course)))
           else
             found ← await (getSandboxForUseCase token usecase);
             sandbox ← match found with
                       | Some sb => mret (Some sb)
                       | None =>
                           emit (CreateSandbox usecase);;
                           await (createSandbox token usecase)
                       end;
             scheme ← deref sandbox sb_scheme;
             host ← deref sandbox sb_host;
             port ← deref sandbox sb_boltPort;
             password ← deref sandbox sb_password;
             emit (Render "browser"
                     (BrowserPage ("course " +:+ course)
                                  scheme host port password))
       | None => emit (Next (NotFoundError ("No use case for " +:+ course)))
       end)
    (λ e, emit (Next e))).

(** [GET /:course/:module].  Nothing returns after [next] is called for a
    missing module: the handler goes on and reads [req.params] again, by
    then the parameters the router has put back. *)
Definition getModule (course module : string) (restored : Params)
    (path : string) : list Event :=
  done_ (tryCatch
    (user ← await getUser;
     c ← await (getCourseWithProgress course user);
     let m := findBySlug (λ m, m_props m !! "slug") module (cp_modules c) in
     params ← (if bool_decide (m = None)
               then nextAndGoOn
                      (NotFoundError
                         ("Could not find module " +:+ module +:+ " of "
                            +:+ course))
                      restored
               else mret {| p_course := Some course; p_module := Some module;
                            p_lesson := None |});
     emit (LogModule m);;
     doc ← await (convertModuleOverview (p_course params) (p_module params));
     emit (Render "course/module"
             (ModulePage ("module " +:+ tpl (p_course params) +:+ "-"
                            +:+ tpl (p_module params))
                         m path c doc)))
    (λ e, emit (Next e))).

(** [GET /:course/:module/:lesson].  After [next] for a missing module the
    read of [module!.lessons] throws; after [next] for a missing lesson the
    handler goes on with the parameters the router has put back. *)
Definition getLesson (course module lesson : string) (restored : Params)
    (path : string) : list Event :=
  done_ (tryCatch
    (user ← await getUser;
     c ← await (getCourseWithProgress course user);
     let m := findBySlug (λ m, m_props m !! "slug") module (cp_modules c) in
     when (bool_decide (m = None))
       (emit (Next (NotFoundError
                      ("Could not find module " +:+ module +:+ " of "
                         +:+ course))));;
     lessons ← deref m m_lessons;
     let l := findBySlug (λ l, l_props l !! "slug") lesson lessons in
     params ← (if bool_decide (l = None)
               then nextAndGoOn
                      (NotFoundError
                         ("Could not find lesson " +:+ lesson
                            +:+ " in module " +:+ module +:+ " of "
                            +:+ course))
                      restored
               else mret {| p_course := Some course; p_module := Some module;
                            p_lesson := Some lesson |});
     name ← deref user given_name;
     doc ← await (convertLessonOverview (p_course params) (p_module params)
                    (p_lesson params) name);
     completed ← deref l l_completed;
     emit (Render "course/lesson"
             (LessonPage
                ("lesson " +:+ tpl (p_course params) +:+ "-"
                   +:+ tpl (p_module params) +:+ "-"
                   +:+ tpl (p_lesson params) +:+ " "
                   +:+ (if completed : bool then "lesson--completed" else ""))
                l path c m doc)))
    (λ e, emit (Next e))).
End CourseRoutes.

(** ** The category routes *)

(** The breadcrumbs the router's middleware puts on every response. *)
Definition breadcrumbs : list Breadcrumb :=
  [ {| bc_link := "/"; bc_text := Some "Neo4j GraphAcademy" |};
    {| bc_link := "/categories"; bc_text := Some "All Courses" |} ].

(** The [reduce] of lines 47-51: the courses of the flattened categories,
    leaving out those whose slug is already collected. *)
Definition uniqueCourses (flattened : list Category) : list CourseWithProgress :=
  foldl (λ acc category,
           acc ++ filter (λ item, cp_props item !! "slug"
                                    ∉ (λ row, cp_props row !! "slug") <$> acc)
                         (default [] (cat_courses category)))
        [] flattened.

Section CategoryRoutes.
Variable getUser : outcome (option AuthUser).
Variable getCoursesByCategory : option AuthUser → outcome Categories.
Variable flattenCategories : Categories → list Category.
Variable groupCoursesByStatus : list CourseWithProgress → Grouped.

(** [GET /categories/] *)
Definition getCategories : list Event :=
  done_ (tryCatch
    (user ← await getUser;
     categories ← await (getCoursesByCategory user);
     let flattened := flattenCategories categories in
     let courses := uniqueCourses flattened in
     let grouped := groupCoursesByStatus courses in
     emit (Render "course/list"
             (ListPage "All Courses" None categories None (Some courses) grouped
                {| hero_overline := "Neo4j GraphAcademy";
                   hero_title := "Free Neo4j Courses";
                   hero_byline := "Hands-on training. No installation required." |}
                "Free Neo4j Courses from GraphAcademy"
                "Hands-on training. No installation required."
                "/img/og/og-categories.png"
                breadcrumbs)))
    (λ e, emit (Next e))).

(** [GET /categories/:slug] *)
Definition getCategory (slug : string) : list Event :=
  done_ (tryCatch
    (user ← await getUser;
     categories ← await (getCoursesByCategory user);
     let flattened := flattenCategories categories in
     match findBySlug cat_slug slug flattened with
     | None =>
         emit (Next (NotFoundError
                       ("Category with slug " +:+ slug
                          +:+ " could not be found")))
     | Some category =>
         let grouped :=
           groupCoursesByStatus (default [] (cat_courses category)) in
         let crumbs :=
           breadcrumbs
             ++ [ {| bc_link := "/categories/" +:+ tpl (cat_slug category)
                                  +:+ "/";
                     bc_text := cat_title category |} ] in
         let certification := bool_decide (slug = "certification") in
         let byline :=
           orElse (cat_caption category)
                  "Hands-on training. No installation required." in
         emit (Render "course/list"
                 (ListPage
                    (if certification then "Neo4j Certifications"
                     else tpl (cat_title category) +:+ " Courses")
                    (Some slug) categories (Some category)
                    (cat_courses category) grouped
                    {| hero_overline := "Neo4j GraphAcademy";
                       hero_title :=
                         if certification then "Free Neo4j Certifications"
                         else "Free Neo4j " +:+ tpl (cat_title category)
                                +:+ " Courses";
                       hero_byline := byline |}
                    (if certification
                     then "Free Neo4j Certifications from GraphAcademy"
                     else "Free Neo4j " +:+ tpl (cat_title category)
                            +:+ " Courses from GraphAcademy")
                    byline
                    ("/categories/" +:+ slug +:+ "/banner")
                    crumbs))
     end)
    (λ e, emit (Next e))).
End CategoryRoutes.
End Handlers.

(** ** Start-up *)

(** The port handed to [app.listen]: [PORT || 3000]. *)
Inductive Port :=
  | PortEnv (s : string)
  | Port3000.

Definition portOf (PORT : option string) : Port :=
  match PORT with
  | Some s => if decide (s = "") then Port3000 else PortEnv s
  | None => Port3000
  end.

Inductive StartEvent :=
  | ConsoleLog (message : string)
  | Listen (port : Port)
  | MergeCategories
  | MergeCourses
  | ConsoleError (e : Error)
  | Close.

(** What the chain does once it has failed with [e]: the [catch] of lines
    37-40. *)
Definition failed (e : Error) : list StartEvent := [ConsoleError e; Close].

(** The promise chain of [main.ts].  [initNeo4j] and [initApp] give promises,
    and [Throws] is a rejection; [initListeners], [app.listen] and the two
    merges are called inside a [then], where [Throws] is what the call
    itself throws (a port out of range, for [listen]) and reaches the
    [catch] like a rejection.  What the calls of the last [then] start and
    leave behind (the callback of [listen], the promises of the merges,
    which nobody awaits) is not part of the trace. *)
Definition main {Driver App : Type}
    (NEO4J_HOST NEO4J_USERNAME NEO4J_PASSWORD PORT : option string)
    (initNeo4j : option string → option string → option string → outcome Driver)
    (initApp : Driver → outcome App)
    (initListeners : App → outcome unit)
    (listen : App → Port → outcome unit)
    (mergeCategories mergeCourses : outcome unit) : list StartEvent :=
  ConsoleLog ("Connecting to " +:+ tpl NEO4J_HOST +:+ " as "
                +:+ tpl NEO4J_USERNAME)
  :: match initNeo4j NEO4J_HOST NEO4J_USERNAME NEO4J_PASSWORD with
     | Throws e => failed e
     | Returns driver =>
         match initApp driver with
         | Throws e => failed e
         | Returns app =>
             match initListeners app with
             | Throws e => failed e
             | Returns _ =>
                 Listen (portOf PORT)
                 :: match listen app (portOf PORT) with
                    | Throws e => failed e
                    | Returns _ =>
                        MergeCategories
                        :: match mergeCategories with
                           | Throws e => failed e
                           | Returns _ =>
                               MergeCourses
                               :: match mergeCourses with
                                  | Throws e => failed e
                                  | Returns _ => []
                                  end
                           end
                    end
             end
         end
     end.

(** ** Strings without a separator *)

(** No ["/"] occurs in the string. *)
Fixpoint noSlash (s : string) : Prop :=
  match s with
  | EmptyString => True
  | String a s' => String a "" ≠ "/" ∧ noSlash s'
  end.

(** ** Pages, categories and collaborators used as concrete inputs *)

Module Site.
(** The course of [Store.chained] as the routes get it from
    [getCourseWithProgress], with a use case. *)
Definition course : CourseWithProgress :=
  {| cp_props := {[ "slug" := "c1"; "usecase" := "movies" ]};
     cp_enrolled := Some true;
     cp_modules := c_modules Store.chainedCourse |}.

Definition plain (slug : string) : CourseWithProgress :=
  {| cp_props := {[ "slug" := slug ]}; cp_enrolled := None; cp_modules := [] |}.

Definition enrolment : Enrolment :=
  {| en_course := course; en_nextModule := head (cp_modules course) |}.

Definition sandbox : Sandbox :=
  {| sb_scheme := Some "bolt"; sb_host := Some "localhost";
     sb_boltPort := Some "7687"; sb_password := Some "secret" |}.

Definition learner : User :=
  {| u_id := Some "u1"; u_name := Some "u1"; u_givenName := Some "U" |}.

Definition category (slug : string) (courses : list CourseWithProgress)
    : Category :=
  {| cat_slug := Some slug; cat_title := Some slug; cat_caption := None;
     cat_courses := Some courses |}.

(** Two categories that share the course [c2]. *)
Definition categories : list Category :=
  [ category "beginners" [plain "c1"; plain "c2"];
    category "developer" [plain "c2"; plain "c3"] ].

Definition getCourseWithProgress (slug : string) (user : option User)
    : outcome CourseWithProgress :=
  if decide (slug = "c1") then Returns course
  else Throws (NotFoundError ("Course " +:+ slug +:+ " not found")).

Definition convert (course module : option string) : outcome string :=
  Returns (tpl course +:+ "/" +:+ tpl module).

(** The conversion of a lesson fails for a lesson it is not told. *)
Definition convertLesson (course module lesson name : option string)
    : outcome string :=
  match lesson with
  | Some lesson => Returns (tpl course +:+ "/" +:+ tpl module +:+ "/" +:+ lesson)
  | None => Throws (Failure "no lesson")
  end.

(** The parameters a router mounted without parameters puts back. *)
Definition unset : Params :=
  {| p_course := None; p_module := None; p_lesson := None |}.

Definition noSandbox (token usecase : string) : outcome (option Sandbox) :=
  Returns None.

Definition newSandbox (token usecase : string) : outcome (option Sandbox) :=
  Returns (Some sandbox).

Definition failingSandbox (token usecase : string)
    : outcome (option Sandbox) :=
  Throws (Failure "sandbox").
End Site.

(** * Properties of the query *)

Lemma filter_none {A} (P : A → Prop) `{!∀ x, Decision (P x)} (l : list A) :
  (∀ x, x ∈ l → ¬ P x) → filter P l = [].
Proof.
  induction l as [|x l IH]; intros Hl; [done|].
  rewrite filter_cons_False by (apply Hl; left).
  apply IH. intros y Hy. apply Hl. by right.
Qed.

Section QueryFacts.
Context (g : Graph).

Lemma rows_lookup id i :
  rows g id !! i =
    (λ b : Node * Node * option Node,
       ((userOf b.1.1, statusOf b.2), courseOf g b.1.2 b.2))
      <$> bindings g id !! i.
Proof. unfold rows. by rewrite list_lookup_fmap. Qed.

Lemma elem_of_bindings id u c e :
  (u, c, e) ∈ bindings g id ↔
    u ∈ matchUser g id ∧ c ∈ matchCourse g ∧ e ∈ optionalEnrolment g u c.
Proof.
  unfold bindings. rewrite list_elem_of_bind. split.
  - intros (u' & Hin & Hu). apply list_elem_of_bind in Hin as (c' & Hin & Hc).
    apply list_elem_of_bind in Hin as (e' & Hin & He).
    apply list_elem_of_singleton in Hin. by simplify_eq.
  - intros (Hu & Hc & He). exists u. split; [|done].
    apply list_elem_of_bind. exists c. split; [|done].
    apply list_elem_of_bind. exists e. split; [|done].
    by apply list_elem_of_singleton.
Qed.

Lemma bindings_nil_no_user id : matchUser g id = [] → bindings g id = [].
Proof. unfold bindings. by intros ->. Qed.

Lemma bindings_nil_no_course id : matchCourse g = [] → bindings g id = [].
Proof.
  unfold bindings. intros ->. induction (matchUser g id) as [|u us IH]; [done|].
  by rewrite bind_cons, IH.
Qed.
End QueryFacts.

Lemma read_no_rows g id : rows g id = [] → read g id = [].
Proof. unfold read. by intros ->. Qed.

Lemma getUserEnrolments_no_rows g id :
  rows g id = [] → getUserEnrolments g id = Ok {| user := None; enrolments := None |}.
Proof. intros H. unfold getUserEnrolments. by rewrite read_no_rows. Qed.

(** C3: the status of a row is decided by its enrolment binding alone:
    [available] without an enrolment, [completed] for an enrolment labelled
    [CompletedEnrolment], [enrolled] for any other enrolment; these three
    labels are the only ones a row can carry. *)
Theorem status_three_way g id i u c e :
  bindings g id !! i = Some (u, c, e) →
  ∃ s, rows g id !! i = Some ((userOf u, s), courseOf g c e)
     ∧ s = match e with
           | None => STATUS_AVAILABLE
           | Some n => if decide ("CompletedEnrolment" ∈ labels n)
                       then STATUS_COMPLETED else STATUS_ENROLLED
           end
     ∧ s ∈ [STATUS_AVAILABLE; STATUS_ENROLLED; STATUS_COMPLETED].
Proof.
  intros Hb. exists (statusOf e). rewrite rows_lookup, Hb. split; [done|].
  destruct e as [n|]; simpl.
  - unfold hasLabel. destruct (decide ("CompletedEnrolment" ∈ labels n)) as [H|H].
    + rewrite bool_decide_eq_true_2 by done. split; [done|]. set_solver.
    + rewrite bool_decide_eq_false_2 by done. split; [done|]. set_solver.
  - split; [done|]. set_solver.
Qed.

Lemma status_three_way_witness :
  ∃ s, rows Store.chained "u1" !! 0
         = Some ((userOf Store.u1, s), courseOf Store.chained Store.c1 (Some Store.e1))
     ∧ s = STATUS_ENROLLED
     ∧ s ∈ [STATUS_AVAILABLE; STATUS_ENROLLED; STATUS_COMPLETED].
Proof.
  apply (status_three_way Store.chained "u1" 0 Store.u1 Store.c1 (Some Store.e1)).
  reflexivity.
Defined.

(** C5: when no [User] node carries the identifier, the service returns the
    empty object (no [user], no [enrolments]) and raises nothing. *)
Theorem unknown_user_empty g id :
  (∀ n, n ∈ nodes g → ¬ ("User" ∈ labels n ∧ props n !! "id" = Some id)) →
  getUserEnrolments g id = Ok {| user := None; enrolments := None |}.
Proof.
  intros Hno. apply getUserEnrolments_no_rows. unfold rows.
  rewrite bindings_nil_no_user; [done|].
  unfold matchUser. by apply filter_none.
Qed.

Lemma unknown_user_empty_witness :
  getUserEnrolments Store.chained "nobody" = Ok {| user := None; enrolments := None |}.
Proof.
  apply (unknown_user_empty Store.chained "nobody").
  intros n Hn. cbn in Hn.
  repeat (apply elem_of_cons in Hn as [->|Hn]); try (by inversion Hn);
    intros [_ H]; vm_compute in H; discriminate H.
Defined.

(** C9: when the store holds no [Course] node, the joint match of users and
    courses has no row and the service returns the empty object, also for a
    known user. *)
Theorem empty_catalog_empty g id :
  (∀ n, n ∈ nodes g → "Course" ∉ labels n) →
  getUserEnrolments g id = Ok {| user := None; enrolments := None |}.
Proof.
  intros Hno. apply getUserEnrolments_no_rows. unfold rows.
  rewrite bindings_nil_no_course; [done|].
  unfold matchCourse. by apply filter_none.
Qed.

Lemma empty_catalog_empty_witness :
  matchUser Store.noCatalog "u1" = [Store.u1]
  ∧ getUserEnrolments Store.noCatalog "u1" = Ok {| user := None; enrolments := None |}.
Proof.
  split; [reflexivity|].
  apply (empty_catalog_empty Store.noCatalog "u1").
  intros n Hn. cbn in Hn. apply list_elem_of_singleton in Hn as ->.
  intros H. apply list_elem_of_singleton in H. discriminate H.
Defined.

Lemma elem_of_head {A} (l : list A) x : head l = Some x → x ∈ l.
Proof. destruct l; intros; simplify_eq/=. left. Qed.

Lemma elem_of_previousMatches g l n pm :
  (n, pm) ∈ previousMatches g l ↔
    n ∈ incoming g l "NEXT_LESSON" ∧ pm ∈ incoming g n "HAS_LESSON".
Proof.
  unfold previousMatches. rewrite list_elem_of_bind. split.
  - intros (n' & Hin & Hn). apply list_elem_of_bind in Hin as (pm' & Hin & Hpm).
    apply list_elem_of_singleton in Hin. by simplify_eq.
  - intros [Hn Hpm]. exists n. split; [|done].
    apply list_elem_of_bind. exists pm. split; [|done].
    by apply list_elem_of_singleton.
Qed.

Lemma elem_of_nextMatches g l n nm :
  (n, nm) ∈ nextMatches g l ↔
    n ∈ outgoing g l "NEXT_LESSON" ∧ nm ∈ incoming g n "HAS_LESSON".
Proof.
  unfold nextMatches. rewrite list_elem_of_bind. split.
  - intros (n' & Hin & Hn). apply list_elem_of_bind in Hin as (nm' & Hin & Hnm).
    apply list_elem_of_singleton in Hin. by simplify_eq.
  - intros [Hn Hnm]. exists n. split; [|done].
    apply list_elem_of_bind. exists nm. split; [|done].
    by apply list_elem_of_singleton.
Qed.

(** C10: [previous] and [next] each hold at most one stub (the fields are
    optional values).  When the pattern of line 33 has matches, whatever
    their number, [next] is the stub of the first one: the slug and the
    title of the neighbour, and the link made of the slugs of the course, of
    the neighbour's owner and of the neighbour; it is missing exactly when no
    [NEXT_LESSON] edge leaves the lesson for a lesson that has an owner.
    The first match is the one of the first [NEXT_LESSON] edge the store
    lists for the lesson, with the first owner the store lists for its
    target.  [previous] does the same over the edges that enter the lesson
    (line 32).  Nothing in the assembly can fail: the projection is a
    function of the store. *)
Theorem first_neighbour_attached g c m e l :
  let stub (n nm : Node) :=
    {| s_slug := props n !! "slug";
       s_title := props n !! "title";
       s_link :=
         match props c !! "slug", props nm !! "slug", props n !! "slug" with
         | Some cs, Some ms, Some ns =>
             Some ((((("/courses/" +:+ cs) +:+ "/") +:+ ms) +:+ "/") +:+ ns)
         | _, _, _ => None
         end |} in
  (∀ n nm ps, nextMatches g l = (n, nm) :: ps →
     l_next (lessonOf g c m e l) = Some (stub n nm))
  ∧ (∀ p pm ps, previousMatches g l = (p, pm) :: ps →
       l_previous (lessonOf g c m e l) = Some (stub p pm))
  ∧ (l_next (lessonOf g c m e l) = None
     ↔ ∀ n nm, n ∈ outgoing g l "NEXT_LESSON" →
               nm ∉ incoming g n "HAS_LESSON")
  ∧ (l_previous (lessonOf g c m e l) = None
     ↔ ∀ p pm, p ∈ incoming g l "NEXT_LESSON" →
               pm ∉ incoming g p "HAS_LESSON")
  ∧ (∀ r rs n nm nms,
       filter (λ r, src r = nid l ∧ rtype r = "NEXT_LESSON") (rels g)
       = r :: rs →
       nodeById g (dst r) = Some n →
       incoming g n "HAS_LESSON" = nm :: nms →
       l_next (lessonOf g c m e l) = Some (stub n nm))
  ∧ (∀ r rs p pm pms,
       filter (λ r, dst r = nid l ∧ rtype r = "NEXT_LESSON") (rels g)
       = r :: rs →
       nodeById g (src r) = Some p →
       incoming g p "HAS_LESSON" = pm :: pms →
       l_previous (lessonOf g c m e l) = Some (stub p pm)).
Proof.
  intros stub.
  assert (∀ n nm, stubOf c (n, nm) = stub n nm) as Hstub.
  { intros n nm. unfold stubOf, stub, prop. f_equal. simpl.
    destruct (props c !! "slug"); [|done].
    destruct (props nm !! "slug"); [|done].
    by destruct (props n !! "slug"). }
  split; [|split; [|split; [|split; [|split]]]].
  - intros n nm ps Hn. simpl. by rewrite Hn, <-Hstub.
  - intros p pm ps Hp. simpl. by rewrite Hp, <-Hstub.
  - simpl. destruct (nextMatches g l) as [|[n nm] ps] eqn:Hm; simpl.
    + split; [|done]. intros _ n nm Hn Hnm.
      assert ((n, nm) ∈ nextMatches g l) as Hin
        by (by apply elem_of_nextMatches).
      rewrite Hm in Hin. by apply elem_of_nil in Hin.
    + split; [done|]. intros Hall.
      assert ((n, nm) ∈ nextMatches g l) as Hin by (rewrite Hm; left).
      apply elem_of_nextMatches in Hin as [Hn Hnm]. by destruct (Hall n nm).
  - simpl. destruct (previousMatches g l) as [|[p pm] ps] eqn:Hm; simpl.
    + split; [|done]. intros _ p pm Hp Hpm.
      assert ((p, pm) ∈ previousMatches g l) as Hin
        by (by apply elem_of_previousMatches).
      rewrite Hm in Hin. by apply elem_of_nil in Hin.
    + split; [done|]. intros Hall.
      assert ((p, pm) ∈ previousMatches g l) as Hin by (rewrite Hm; left).
      apply elem_of_previousMatches in Hin as [Hp Hpm].
      by destruct (Hall p pm).
  - intros r rs n nm nms Hr Hn Hnm. simpl.
    unfold nextMatches, outgoing. rewrite Hr. cbn. rewrite Hn. cbn.
    rewrite Hnm. cbn. by rewrite <-Hstub.
  - intros r rs p pm pms Hr Hp Hpm. simpl.
    assert (∃ ps, incoming g l "NEXT_LESSON" = p :: ps) as [ps Hinc].
    { unfold incoming. rewrite Hr. cbn. rewrite Hp. cbn. by eexists. }
    unfold previousMatches. rewrite Hinc. cbn. rewrite Hpm. cbn.
    by rewrite <-Hstub.
Qed.

Lemma first_neighbour_attached_witness :
  nextMatches Store.branching Store.la
  = [(Store.lb, Store.m1); (Store.lc, Store.m1)]
  ∧ l_next (lessonOf Store.branching Store.c1 Store.m1 None Store.la)
    = Some {| s_slug := Some "b"; s_title := Some "b";
              s_link := Some "/courses/c1/m1/b" |}
  ∧ previousMatches Store.branching Store.ld
    = [(Store.lb, Store.m1); (Store.lc, Store.m1)]
  ∧ l_previous (lessonOf Store.branching Store.c1 Store.m1 None Store.ld)
    = Some {| s_slug := Some "b"; s_title := Some "b";
              s_link := Some "/courses/c1/m1/b" |}.
Proof.
  destruct (first_neighbour_attached Store.branching Store.c1 Store.m1 None
              Store.la) as (Hnext & _).
  destruct (first_neighbour_attached Store.branching Store.c1 Store.m1 None
              Store.ld) as (_ & Hprev & _).
  split; [reflexivity|]. split.
  - etrans; [apply (Hnext Store.lb Store.m1 [(Store.lc, Store.m1)]);
             reflexivity|].
    vm_compute. reflexivity.
  - split; [reflexivity|].
    etrans; [apply (Hprev Store.lb Store.m1 [(Store.lc, Store.m1)]);
             reflexivity|].
    vm_compute. reflexivity.
Defined.

(** C2, as stated, fails: lesson a of course c1 gets as [next] the lesson x,
    which belongs to no module of c1 (its only module is m2 of course c2). *)
Lemma neighbour_outside_course :
  Store.m1 ∈ outgoing Store.foreign Store.c1 "HAS_MODULE"
  ∧ Store.la ∈ outgoing Store.foreign Store.m1 "HAS_LESSON"
  ∧ nextMatches Store.foreign Store.la = [(Store.lx, Store.m2)]
  ∧ l_next (lessonOf Store.foreign Store.c1 Store.m1 None Store.la)
    = Some {| s_slug := Some "x"; s_title := Some "x";
              s_link := Some "/courses/c1/m2/x" |}
  ∧ ¬ inCourse Store.foreign Store.c1 Store.lx.
Proof.
  split; [vm_compute; left|]. split; [vm_compute; left|].
  split; [reflexivity|]. split; [reflexivity|].
  intros (m & Hm & Hl).
  assert (outgoing Store.foreign Store.c1 "HAS_MODULE" = [Store.m1]) as E
    by reflexivity.
  rewrite E in Hm. apply list_elem_of_singleton in Hm as ->.
  assert (outgoing Store.foreign Store.m1 "HAS_LESSON" = [Store.la]) as E'
    by reflexivity.
  rewrite E' in Hl. apply list_elem_of_singleton in Hl. discriminate Hl.
Qed.

(** C2, amended: a stub is attached only for a neighbour along a
    [NEXT_LESSON] edge that has some owner along a [HAS_LESSON] edge; the
    owner is not required to be a module of the lesson's course, and the
    stub's link is built from the slug of the current course and the slug of
    that owner. *)
Theorem neighbour_has_owner g c m e l s :
  (l_previous (lessonOf g c m e l) = Some s →
     ∃ n pm, n ∈ incoming g l "NEXT_LESSON" ∧ pm ∈ incoming g n "HAS_LESSON"
             ∧ s = stubOf c (n, pm))
  ∧ (l_next (lessonOf g c m e l) = Some s →
     ∃ n nm, n ∈ outgoing g l "NEXT_LESSON" ∧ nm ∈ incoming g n "HAS_LESSON"
             ∧ s = stubOf c (n, nm)).
Proof.
  split; simpl; intros Hs.
  - apply elem_of_head, list_elem_of_fmap in Hs as ([n pm] & -> & Hin).
    apply elem_of_previousMatches in Hin as [Hn Hpm]. by exists n, pm.
  - apply elem_of_head, list_elem_of_fmap in Hs as ([n nm] & -> & Hin).
    apply elem_of_nextMatches in Hin as [Hn Hnm]. by exists n, nm.
Qed.

Lemma neighbour_has_owner_witness :
  ∃ n nm, n ∈ outgoing Store.chained Store.lb "NEXT_LESSON"
          ∧ nm ∈ incoming Store.chained n "HAS_LESSON"
          ∧ {| s_slug := Some "c"; s_title := Some "c";
               s_link := Some "/courses/c1/m2/c" |}
            = stubOf Store.c1 (n, nm).
Proof.
  apply (neighbour_has_owner Store.chained Store.c1 Store.m1 (Some Store.e1) Store.lb).
  reflexivity.
Defined.

Section CompletionFacts.
Context (g : Graph) (e : Node) (ids : list nat).




End CompletionFacts.



(** * Grouping and the result map *)

Lemma rmapM_Ok {A B} (f : A → result B) l l' :
  rmapM f l = Ok l' ↔ Forall2 (λ x y, f x = Ok y) l l'.
Proof.
  revert l'. induction l as [|x l IH]; intros l'; simpl.
  - split; [intros [= <-]; constructor|by inversion 1].
  - destruct (f x) as [y|] eqn:Hx; simpl.
    + destruct (rmapM f l) as [ys|] eqn:Hl; simpl.
      * split.
        -- intros [= <-]. constructor; [done|]. by apply IH.
        -- inversion 1 as [|? y' ? ys' Hy Hys]; subst.
           apply IH in Hys. congruence.
      * split; [done|]. inversion 1 as [|? y' ? ys' Hy Hys]; subst.
        apply IH in Hys. done.
    + split; [done|]. inversion 1; congruence.
Qed.

Lemma rmapM_Err {A B} (f : A → result B) l x flt :
  x ∈ l → f x = Err flt → ∃ flt', rmapM f l = Err flt'.
Proof.
  induction 1 as [x l|x y l Hin IH]; intros Hx; simpl.
  - rewrite Hx. by eexists.
  - destruct (f y); simpl; [|by eexists].
    destruct (IH Hx) as [flt' ->]. by eexists.
Qed.

Section Grouping.
Context {K V : Type} `{EqDecision K}.
Implicit Types rs : list (K * V).

Lemma elem_of_collect rs k vs :
  (k, vs) ∈ collect rs ↔ k ∈ rs.*1 ∧ vs = (filter (λ r, r.1 = k) rs).*2.
Proof.
  unfold collect. rewrite list_elem_of_fmap. split.
  - intros (k' & [= -> ->] & Hk). rewrite elem_of_remove_dups in Hk. by split.
  - intros [Hk ->]. exists k. by rewrite elem_of_remove_dups.
Qed.

Lemma collect_keys rs : (collect rs).*1 = remove_dups (rs.*1).
Proof.
  unfold collect. rewrite <-list_fmap_compose. apply list_fmap_id.
Qed.

Lemma NoDup_collect rs : NoDup (collect rs).*1.
Proof. rewrite collect_keys. apply NoDup_remove_dups. Qed.

Lemma collect_group_nonempty rs k vs : (k, vs) ∈ collect rs → vs ≠ [].
Proof.
  intros [Hk ->]%elem_of_collect.
  apply list_elem_of_fmap in Hk as ([k' v] & -> & Hin).
  intros Hnil. apply fmap_nil_inv in Hnil.
  by eapply (filter_nil_not_elem_of _ rs (k', v)).
Qed.
End Grouping.

Lemma fromPairs_lookup_gen {V} (pairs : list (string * V)) (m : gmap string V) k v :
  NoDup (pairs.*1) →
  foldl (λ m p, <[p.1 := p.2]> m) m pairs !! k = Some v ↔
    (k, v) ∈ pairs ∨ (m !! k = Some v ∧ k ∉ pairs.*1).
Proof.
  revert m. induction pairs as [|[k0 v0] ps IH]; intros m Hnd; simpl.
  - rewrite elem_of_nil. split; [|by intros [[]|[? _]]].
    intros Hm. right. split; [done|apply not_elem_of_nil].
  - apply NoDup_cons in Hnd as [Hk0 Hnd]. rewrite IH by done. simpl.
    assert (∀ v', (k0, v') ∉ ps) as Hk0'.
    { intros v' Hin. apply Hk0. apply list_elem_of_fmap. by exists (k0, v'). }
    rewrite !elem_of_cons. destruct (decide (k = k0)) as [->|Hne].
    + rewrite lookup_insert_eq. split.
      * intros [Hin|[[= ->] _]]; [by apply Hk0' in Hin|by left; left].
      * intros [[[= ->]|Hin]|[_ Hn]]; [by right|by left|].
        exfalso. apply Hn. by left.
    + rewrite lookup_insert_ne by done. split.
      * intros [Hin|[Hm Hn]]; [by left; right|]. right. split; [done|].
        by intros [?|?].
      * intros [[[= -> ->]|Hin]|[Hm Hn]]; [done|by left|].
        right. split; [done|]. intros ?. apply Hn. by right.
Qed.

Lemma fromPairs_lookup {V} (pairs : list (string * V)) k v :
  NoDup (pairs.*1) → fromPairs pairs !! k = Some v ↔ (k, v) ∈ pairs.
Proof.
  intros Hnd. unfold fromPairs. rewrite fromPairs_lookup_gen by done.
  rewrite lookup_empty. split; [by intros [?|[? _]]|by left].
Qed.

(** Entries of a list with distinct keys are determined by their key. *)
Lemma NoDup_fst_eq {A B} (l : list (A * B)) x y1 y2 :
  NoDup (l.*1) → (x, y1) ∈ l → (x, y2) ∈ l → y1 = y2.
Proof.
  induction l as [|[a b] l IH]; simpl; intros Hnd H1 H2.
  - by apply elem_of_nil in H1.
  - apply NoDup_cons in Hnd as [Ha Hnd].
    assert (∀ y, (a, y) ∉ l) as Ha'.
    { intros y Hin. apply Ha. apply list_elem_of_fmap. by exists (a, y). }
    apply elem_of_cons in H1 as [H1|H1];
      apply elem_of_cons in H2 as [H2|H2]; simplify_eq;
      try done; try (by apply Ha' in H1); try (by apply Ha' in H2).
    by apply IH.
Qed.

Section Records.
Context (g : Graph) (id : string).

(** The map of a record binds a status exactly to the courses of the rows
    that carry the record's user and that status, in row order. *)
Lemma read_lookup u m k cs :
  (u, m) ∈ read g id →
  m !! k = Some cs ↔
    (u, k) ∈ (rows g id).*1
    ∧ cs = (filter (λ r, r.1 = (u, k)) (rows g id)).*2.
Proof.
  unfold read. intros Hin.
  apply list_elem_of_fmap in Hin as ([u' pairs] & [= -> ->] & Hin). simpl.
  apply elem_of_collect in Hin as [Hu ->].
  set (byStatus := collect (rows g id)).
  set (regroup := λ r : User * string * list Course, (r.1.1, (r.1.2, r.2))).
  assert (∀ k cs, (k, cs) ∈ (filter (λ r, r.1 = u') (regroup <$> byStatus)).*2
                  ↔ ((u', k), cs) ∈ byStatus) as Hpairs.
  { intros k' cs'. rewrite list_elem_of_fmap. split.
    - intros ([u2 p] & Hp & [Heq Hin]%list_elem_of_filter). simpl in *. subst.
      apply list_elem_of_fmap in Hin as ([[u3 k3] cs3] & Heq & Hin).
      unfold regroup in Heq. by simplify_eq/=.
    - intros Hin. exists (u', (k', cs')). split; [done|].
      apply list_elem_of_filter. split; [done|].
      apply list_elem_of_fmap. by exists ((u', k'), cs'). }
  rewrite fromPairs_lookup, Hpairs; [apply elem_of_collect|].
  apply NoDup_fmap_2_strong.
  - intros [k1 cs1] [k2 cs2] H1 H2 Heq. simpl in Heq. subst k2.
    apply Hpairs in H1, H2. f_equal.
    eapply NoDup_fst_eq; [apply (NoDup_collect (rows g id))|done..].
  - apply NoDup_fmap_2_strong.
    + intros [u1 p1] [u2 p2] [Hu1 _]%list_elem_of_filter
             [Hu2 _]%list_elem_of_filter Heq. simpl in *. congruence.
    + apply NoDup_filter. apply NoDup_fmap_2_strong.
      * intros [[? ?] ?] [[? ?] ?] _ _ [= -> -> ->]. done.
      * eapply NoDup_fmap_1, (NoDup_collect (rows g id)).
Qed.

Lemma read_user u m : (u, m) ∈ read g id → ∃ k, (u, k) ∈ (rows g id).*1.
Proof.
  unfold read. intros Hin.
  apply list_elem_of_fmap in Hin as ([u' pairs] & [= -> ->] & Hin).
  apply elem_of_collect in Hin as [Hu _].
  apply list_elem_of_fmap in Hu as ([u2 p] & -> & Hin).
  apply list_elem_of_fmap in Hin as ([[u3 k3] cs3] & [= -> ->] & Hin).
  apply elem_of_collect in Hin as [Hin _]. by exists k3.
Qed.
End Records.

Lemma rmapM_length {A B} (f : A → result B) l l' :
  rmapM f l = Ok l' → length l' = length l.
Proof. intros H%rmapM_Ok. symmetry. by eapply Forall2_length. Qed.

Section SortEnrolments.
Context (m m' : gmap string (list Course)).
Hypothesis Hsort : sortEnrolments m = Ok m'.

Local Lemma sorted_entries :
  ∃ l', m' = list_to_map l'
        ∧ Forall2 (λ kv kv' : string * list Course,
                     kv'.1 = kv.1 ∧ rmapM sortCourse kv.2 = Ok kv'.2)
                  (map_to_list m) l'.
Proof.
  unfold sortEnrolments in Hsort.
  destruct (rmapM _ (map_to_list m)) as [l'|] eqn:E; simplify_eq/=.
  exists l'. split; [done|]. apply rmapM_Ok in E.
  eapply Forall2_impl; [apply E|]. intros [k cs] [k' cs'] H. simpl in *.
  destruct (rmapM sortCourse cs); by simplify_eq/=.
Qed.

Lemma sortEnrolments_lookup_1 k cs' :
  m' !! k = Some cs' → ∃ cs, m !! k = Some cs ∧ rmapM sortCourse cs = Ok cs'.
Proof.
  destruct sorted_entries as (l' & -> & HF). intros Hk.
  apply elem_of_list_to_map_2, list_elem_of_lookup in Hk as [i Hi].
  destruct (Forall2_lookup_r _ _ _ _ _ HF Hi) as ([k0 cs] & Hi0 & Hk0 & Hcs).
  simpl in *. subst k0. exists cs. split; [|done].
  by apply elem_of_map_to_list, list_elem_of_lookup_2 with i.
Qed.

Lemma sortEnrolments_lookup_2 k cs :
  m !! k = Some cs → ∃ cs', m' !! k = Some cs' ∧ rmapM sortCourse cs = Ok cs'.
Proof.
  destruct sorted_entries as (l' & -> & HF). intros Hk.
  apply elem_of_map_to_list, list_elem_of_lookup in Hk as [i Hi].
  destruct (Forall2_lookup_l _ _ _ _ _ HF Hi) as ([k0 cs'] & Hi0 & Hk0 & Hcs).
  simpl in *. subst k0. exists cs'. split; [|done].
  apply elem_of_list_to_map_1; [|by apply list_elem_of_lookup_2 with i].
  assert (l'.*1 = (map_to_list m).*1) as ->.
  { clear -HF. induction HF as [|x y l l' [Hk _] _ IH]; [done|].
    by rewrite !fmap_cons, Hk, IH. }
  apply NoDup_fst_map_to_list.
Qed.
End SortEnrolments.

(** C4: in a result that carries a mapping, a status is a key exactly when a
    row of the result's user carries that status, and no key is bound to an
    empty list; when the store holds no enrolment at all, [enrolled] and
    [completed] are missing and every catalog course is found, in its sorted
    form, under [available]. *)
Theorem enrolments_keys g id u m :
  getUserEnrolments g id = Ok {| user := Some u; enrolments := Some m |} →
  (∀ k, is_Some (m !! k) ↔ ∃ c, ((u, k), c) ∈ rows g id)
  ∧ (∀ k cs, m !! k = Some cs → cs ≠ [])
  ∧ ((∀ u0 c0, u0 ∈ matchUser g id → enrolmentMatches g u0 c0 = []) →
       m !! STATUS_ENROLLED = None ∧ m !! STATUS_COMPLETED = None
       ∧ ∃ cs, m !! STATUS_AVAILABLE = Some cs
               ∧ ∀ c, c ∈ matchCourse g →
                      ∃ c', c' ∈ cs ∧ sortCourse (courseOf g c None) = Ok c').
Proof.
  unfold getUserEnrolments. destruct (read g id) as [|[u' m0] rest] eqn:Hread;
    [done|]. simpl.
  destruct (sortEnrolments m0) as [m1|] eqn:Hsort; [|done]. simpl.
  intros [= -> ->].
  assert ((u, m0) ∈ read g id) as Hin by (rewrite Hread; left).
  assert (∀ k, is_Some (m !! k) ↔ ∃ c, ((u, k), c) ∈ rows g id) as Hkeys.
  { intros k. split.
    - intros [cs' Hk].
      destruct (sortEnrolments_lookup_1 _ _ Hsort _ _ Hk) as (cs & Hcs & _).
      apply (read_lookup g id u m0 k cs Hin) in Hcs as [Hrow _].
      apply list_elem_of_fmap in Hrow as ([uk c] & ? & Hrow). simpl in *. subst.
      by exists c.
    - intros [c Hc].
      assert (m0 !! k = Some (filter (λ r, r.1 = (u, k)) (rows g id)).*2) as Hk.
      { apply (read_lookup g id u m0 k _ Hin). split; [|done].
        apply list_elem_of_fmap. by exists ((u, k), c). }
      destruct (sortEnrolments_lookup_2 _ _ Hsort _ _ Hk) as (cs' & Hcs' & _).
      by exists cs'. }
  split; [done|]. split.
  - intros k cs' Hk.
    destruct (sortEnrolments_lookup_1 _ _ Hsort _ _ Hk) as (cs & Hcs & Hs).
    apply (read_lookup g id u m0 k cs Hin) in Hcs as [Hrow ->].
    apply rmapM_length in Hs. intros ->. simpl in Hs.
    apply list_elem_of_fmap in Hrow as ([uk c] & ? & Hrow). simpl in *. subst.
    symmetry in Hs. apply nil_length_inv, fmap_nil_inv in Hs.
    by eapply (filter_nil_not_elem_of _ _ ((u, k), c)).
  - intros Hnone.
    assert (∀ k c, ((u, k), c) ∈ rows g id → k = STATUS_AVAILABLE) as Havail.
    { intros k c Hrow. unfold rows in Hrow.
      apply list_elem_of_fmap in Hrow as ([[un cn] e] & [= -> -> ->] & Hb).
      apply elem_of_bindings in Hb as (Hun & _ & He).
      unfold optionalEnrolment in He. rewrite (Hnone _ _ Hun) in He.
      by apply list_elem_of_singleton in He as ->. }
    split; [|split].
    + apply eq_None_not_Some. intros [c Hc]%Hkeys. by apply Havail in Hc.
    + apply eq_None_not_Some. intros [c Hc]%Hkeys. by apply Havail in Hc.
    + destruct (read_user g id u m0 Hin) as [k Hk].
      apply list_elem_of_fmap in Hk as ([uk c0] & ? & Hrow). simpl in *. subst.
      pose proof (Havail _ _ Hrow) as ->.
      assert (m0 !! STATUS_AVAILABLE
              = Some (filter (λ r, r.1 = (u, STATUS_AVAILABLE)) (rows g id)).*2)
        as Hk.
      { apply (read_lookup g id u m0 _ _ Hin). split; [|done].
        apply list_elem_of_fmap. by exists ((u, STATUS_AVAILABLE), c0). }
      destruct (sortEnrolments_lookup_2 _ _ Hsort _ _ Hk) as (cs' & Hcs' & Hs).
      exists cs'. split; [done|]. intros c Hc.
      unfold rows in Hrow.
      apply list_elem_of_fmap in Hrow as ([[un cn] e] & Heq & Hb).
      simpl in Heq. injection Heq as Hu _ _.
      apply elem_of_bindings in Hb as (Hun & _ & _).
      assert (((u, STATUS_AVAILABLE), courseOf g c None) ∈ rows g id) as Hrow.
      { unfold rows. apply list_elem_of_fmap. exists (un, c, None).
        split; [by rewrite Hu|]. apply elem_of_bindings.
        split; [done|]. split; [done|].
        unfold optionalEnrolment. rewrite (Hnone _ _ Hun). left. }
      assert (courseOf g c None
              ∈ (filter (λ r, r.1 = (u, STATUS_AVAILABLE)) (rows g id)).*2) as Hcin.
      { apply list_elem_of_fmap. exists ((u, STATUS_AVAILABLE), courseOf g c None).
        split; [done|]. by apply list_elem_of_filter. }
      apply rmapM_Ok in Hs. apply list_elem_of_lookup in Hcin as [i Hi].
      destruct (Forall2_lookup_l _ _ _ _ _ Hs Hi) as (c' & Hi' & Hc').
      exists c'. split; [by apply list_elem_of_lookup_2 with i|done].
Qed.

Lemma enrolments_keys_witness :
  Store.catalogEnrolments !! STATUS_ENROLLED = None
  ∧ Store.catalogEnrolments !! STATUS_COMPLETED = None
  ∧ ∃ cs, Store.catalogEnrolments !! STATUS_AVAILABLE = Some cs
          ∧ ∀ c, c ∈ matchCourse Store.catalog →
                 ∃ c', c' ∈ cs ∧ sortCourse (courseOf Store.catalog c None) = Ok c'.
Proof.
  apply (enrolments_keys Store.catalog "u1" (userOf Store.u1) Store.catalogEnrolments).
  - reflexivity.
  - intros u0 c0 _. unfold enrolmentMatches.
    assert (∀ a, outgoing Store.catalog a "HAS_ENROLMENT" = []) as ->; [|done].
    intros a. unfold outgoing. rewrite filter_none; [done|].
    intros r Hr [_ Hty]. cbn in Hr.
    repeat (apply elem_of_cons in Hr as [->|Hr]); try discriminate Hty.
    by apply elem_of_nil in Hr.
Defined.

(** * The order resolver *)

Lemma filter_ext_elem {A} (P Q : A → Prop) `{!∀ x, Decision (P x)}
    `{!∀ x, Decision (Q x)} (l : list A) :
  (∀ x, x ∈ l → P x ↔ Q x) → filter P l = filter Q l.
Proof.
  induction l as [|x l IH]; intros Hext; [done|].
  rewrite !filter_cons, IH by (intros y Hy; apply Hext; by right).
  apply decide_ext, Hext. left.
Qed.

Section Candidates.
Context (fl : list Lesson).

Lemma findByLink_Some k l : findByLink k fl = Some l → l ∈ fl ∧ l_link l = k.
Proof.
  unfold findByLink. intros Hf.
  destruct (filter _ fl) as [|x [|??]] eqn:E; simplify_eq.
  assert (l ∈ filter (λ l, l_link l = k) fl) as Hin by (rewrite E; left).
  apply list_elem_of_filter in Hin as [? ?]. done.
Qed.

Lemma findByLink_unique l :
  NoDup (l_link <$> fl) → l ∈ fl → findByLink (l_link l) fl = Some l.
Proof.
  unfold findByLink. intros Hnd Hin.
  assert (filter (λ x, l_link x = l_link l) fl = [l]) as ->; [|done].
  induction fl as [|x fl' IH]; [by apply elem_of_nil in Hin|].
  rewrite fmap_cons in Hnd. apply NoDup_cons in Hnd as [Hx Hnd].
  apply elem_of_cons in Hin as [->|Hin].
  - rewrite filter_cons_True by done. f_equal. apply filter_none.
    intros y Hy Heq. apply Hx. rewrite <-Heq. by apply list_elem_of_fmap_2.
  - rewrite filter_cons_False; [by apply IH|].
    intros Heq. apply Hx. rewrite Heq. by apply list_elem_of_fmap_2.
Qed.
End Candidates.

Lemma findByLink_perm k fl fl' : fl ≡ₚ fl' → findByLink k fl = findByLink k fl'.
Proof.
  intros Hp. unfold findByLink.
  assert (filter (λ l, l_link l = k) fl ≡ₚ filter (λ l, l_link l = k) fl') as Hf
    by (by rewrite Hp).
  destruct (filter _ fl) as [|x [|y r]] eqn:E.
  - apply Permutation_nil_l in Hf. by rewrite <-Hf.
  - apply Permutation_singleton_l in Hf. by rewrite <-Hf.
  - apply Permutation_length in Hf. simpl in Hf.
    by destruct (filter _ fl') as [|x' [|y' r']].
Qed.

Lemma walk_perm n fl fl' v cur : fl ≡ₚ fl' → walk n fl v cur = walk n fl' v cur.
Proof.
  intros Hp. revert v cur. induction n as [|n IH]; intros v cur; simpl; [done|].
  destruct (l_next cur) as [s|]; [|done]. case_decide; [done|].
  rewrite (findByLink_perm _ _ _ Hp). destruct (findByLink _ fl'); [|done].
  by rewrite IH.
Qed.

Lemma heads_perm fl fl' h : fl ≡ₚ fl' → heads fl = [h] → heads fl' = [h].
Proof.
  unfold heads. intros Hp Hh. symmetry. apply Permutation_singleton_l.
  by rewrite <-Hh, Hp.
Qed.

(** What a completed walk looks like. *)
Lemma walk_Chain n fl v cur ch :
  l_link cur ∉ v →
  walk n fl v cur = Chain ch →
  ∃ r, ch = cur :: r
       ∧ (∀ x, x ∈ r → x ∈ fl)
       ∧ NoDup (l_link <$> ch)
       ∧ (∀ k, k ∈ v → k ∉ l_link <$> ch)
       ∧ linked ch.
Proof.
  revert v cur ch. induction n as [|n IH]; intros v cur ch Hcur; simpl; [done|].
  destruct (l_next cur) as [s|] eqn:Hnext.
  - case_decide as Hvis; [done|].
    destruct (findByLink (s_link s) fl) as [nxt|] eqn:Hfind; [|done].
    apply findByLink_Some in Hfind as [Hin Hlink].
    destruct (walk n fl (l_link cur :: v) nxt) as [ch'| |] eqn:Hw; [|done..].
    intros [= <-].
    assert (l_link nxt ∉ l_link cur :: v) as Hnew by (by rewrite Hlink).
    apply (IH _ _ _ Hnew) in Hw as (r & -> & Hr & Hnd & Hv & Hl).
    exists (nxt :: r). split; [done|]. split; [|split; [|split]].
    + intros x [->|Hx]%elem_of_cons; auto.
    + rewrite fmap_cons. apply NoDup_cons_2; [|done]. apply Hv. left.
    + intros k Hk. rewrite fmap_cons. apply not_elem_of_cons. split.
      * by intros ->.
      * apply Hv. by right.
    + simpl. split; [|done]. by rewrite Hnext, Hlink.
  - intros [= <-]. exists []. split; [done|]. split; [by intros x ?%elem_of_nil|].
    split; [apply NoDup_singleton|]. split; [|done].
    intros k Hk [->|[]%elem_of_nil]%elem_of_cons. done.
Qed.

(** The fuel handed to [walk] by [lessonOrder] is never used up. *)
Lemma walk_fuel (n : nat) (fl : list Lesson) v cur :
  cur ∈ fl →
  NoDup (l_link cur :: v) →
  (∀ k, k ∈ v → k ∈ l_link <$> fl) →
  length fl ≤ n + length v →
  walk n fl v cur ≠ OutOfFuel.
Proof.
  revert v cur. induction n as [|n IH]; intros v cur Hin Hnd Hsub Hlen; simpl.
  - exfalso.
    assert (l_link cur :: v ⊆+ l_link <$> fl) as Hle.
    { apply NoDup_submseteq; [done|]. intros k [->|Hk]%elem_of_cons; [|by auto].
      by apply list_elem_of_fmap_2. }
    apply submseteq_length in Hle. rewrite length_fmap in Hle. simpl in *. lia.
  - destruct (l_next cur) as [s|]; [|done]. case_decide as Hvis; [done|].
    destruct (findByLink (s_link s) fl) as [nxt|] eqn:Hfind; [|done].
    apply findByLink_Some in Hfind as [Hnxt Hlink].
    assert (walk n fl (l_link cur :: v) nxt ≠ OutOfFuel) as Hw.
    { apply IH; [done| | |simpl; lia].
      - apply NoDup_cons_2; [by rewrite Hlink|done].
      - intros k [->|Hk]%elem_of_cons; [by apply list_elem_of_fmap_2|by auto]. }
    by destruct (walk n fl (l_link cur :: v) nxt).
Qed.

Lemma elem_of_heads fl h : h ∈ heads fl ↔ l_previous h = None ∧ h ∈ fl.
Proof. unfold heads. by rewrite list_elem_of_filter. Qed.

(** A successful [lessonOrder] is a chain through all the lessons. *)
Lemma lessonOrder_Ok c ch :
  lessonOrder c = Ok ch →
  ch ≡ₚ flatten c ∧ NoDup (l_link <$> ch) ∧ linked ch
  ∧ ∃ h, heads (flatten c) = [h] ∧ walk (length (flatten c)) (flatten c) [] h = Chain ch.
Proof.
  unfold lessonOrder. destruct (heads (flatten c)) as [|h [|??]] eqn:Hh; [done| |done].
  destruct (walk _ _ _ h) as [ch'| |] eqn:Hw; [|done..].
  case_decide as Hlen; [|done]. intros [= ->].
  assert (h ∈ flatten c) as Hin.
  { apply (elem_of_heads (flatten c) h). rewrite Hh. left. }
  pose proof Hw as Hw'.
  apply walk_Chain in Hw as (r & -> & Hr & Hnd & _ & Hl); [|apply not_elem_of_nil].
  split; [|by eauto 6].
  apply submseteq_length_Permutation; [|by rewrite Hlen].
  apply NoDup_submseteq; [by eapply NoDup_fmap_1|].
  intros x [->|Hx]%elem_of_cons; auto.
Qed.

Lemma lessonOrder_never_out_of_fuel c h :
  h ∈ flatten c → walk (length (flatten c)) (flatten c) [] h ≠ OutOfFuel.
Proof.
  intros Hin. apply walk_fuel; [done|apply NoDup_singleton| |simpl; lia].
  by intros k ?%elem_of_nil.
Qed.

(** ** Sorting by a key *)

Section SortBy.
Context {A : Type} (key : A → nat).

Lemma insertBy_perm a l : insertBy key a l ≡ₚ a :: l.
Proof.
  induction l as [|x l IH]; simpl; [done|]. case_decide; [|done].
  by rewrite IH, Permutation_swap.
Qed.

Lemma sortBy_perm l : sortBy key l ≡ₚ l.
Proof.
  induction l as [|x l IH]; simpl; [done|].
  by rewrite insertBy_perm, IH.
Qed.

Lemma insertBy_Sorted a l : Sorted (byKey key) l → Sorted (byKey key) (insertBy key a l).
Proof.
  induction 1 as [|x l Hs IH Hhd]; simpl; [by repeat constructor|].
  case_decide as Hlt.
  - constructor; [done|].
    destruct Hhd as [|y l' Hxy]; simpl.
    + constructor. unfold byKey. lia.
    + case_decide; constructor; unfold byKey in *; lia.
  - constructor; [by constructor|]. constructor. unfold byKey. lia.
Qed.

Lemma sortBy_Sorted l : Sorted (byKey key) (sortBy key l).
Proof.
  induction l as [|x l IH]; simpl; [constructor|]. by apply insertBy_Sorted.
Qed.

(** Sorting leaves a sorted list as it is. *)
Lemma sortBy_id l : Sorted (byKey key) l → sortBy key l = l.
Proof.
  induction 1 as [|x l Hs IH Hhd]; [done|].
  change (sortBy key (x :: l)) with (insertBy key x (sortBy key l)).
  rewrite IH. destruct Hhd as [|y l' Hxy]; simpl; [done|].
  unfold byKey in Hxy. rewrite decide_False by lia. done.
Qed.
End SortBy.

Lemma Sorted_byKey_fmap {A} (key : A → nat) (f : A → A) l :
  (∀ x, x ∈ l → key (f x) = key x) →
  Sorted (byKey key) l → Sorted (byKey key) (f <$> l).
Proof.
  intros Hkey Hs. induction Hs as [|x l Hs IH Hhd]; simpl; [constructor|].
  constructor.
  - apply IH. intros y Hy. apply Hkey. by right.
  - destruct Hhd as [|y l' Hxy]; simpl; constructor.
    unfold byKey in *. rewrite !Hkey; [done|right; left|left].
Qed.

(** ** Regrouping the chain by module *)

Section Regroup.
Context (ch : list Lesson).

Lemma owns_own m l : l ∈ m_lessons m → owns m l.
Proof. intros Hl. unfold owns. by apply list_elem_of_fmap_2. Qed.

Lemma owns_no_lessons m l : ¬ hasLessons m → ¬ owns m l.
Proof.
  unfold hasLessons, owns. intros Hm Ho.
  destruct (m_lessons m); [by apply elem_of_nil in Ho|]. by apply Hm.
Qed.

(** Regrouping does not change which lessons of the chain a module owns. *)
Lemma owns_setLessons m l : l ∈ ch → owns (setLessons ch m) l ↔ owns m l.
Proof.
  intros Hl. unfold owns at 1. simpl. split.
  - intros (l' & Heq & [Ho _]%list_elem_of_filter)%list_elem_of_fmap.
    unfold owns in *. by rewrite Heq.
  - intros Ho. apply list_elem_of_fmap_2. by apply list_elem_of_filter.
Qed.

Lemma setLessons_setLessons m : setLessons ch (setLessons ch m) = setLessons ch m.
Proof.
  change (mkModule (m_props m) (m_link m) (m_completed m)
                   (filter (owns (setLessons ch m)) ch)
          = mkModule (m_props m) (m_link m) (m_completed m)
                     (filter (owns m) ch)).
  f_equal. apply filter_ext_elem. intros l Hl. by apply owns_setLessons.
Qed.

Lemma earliest_setLessons m : earliest ch (setLessons ch m) = earliest ch m.
Proof.
  unfold earliest. f_equal. f_equal.
  assert (∀ l0, Forall (λ l, owns (setLessons ch m) l ↔ owns m l) l0 →
                list_find (owns (setLessons ch m)) l0 = list_find (owns m) l0) as H.
  { induction 1 as [|x l0 Hx _ IH]; simpl; [done|].
    rewrite IH. by repeat case_decide; try tauto. }
  apply H, Forall_forall. intros l Hl. by apply owns_setLessons.
Qed.

Lemma hasLessons_setLessons m :
  (∀ l, l ∈ m_lessons m → l ∈ ch) → hasLessons m → hasLessons (setLessons ch m).
Proof.
  unfold hasLessons. simpl. intros Hsub Hm.
  destruct (m_lessons m) as [|l ls] eqn:E; [done|].
  intros Hnil. apply (filter_nil_not_elem_of (owns m) ch l Hnil).
  - apply owns_own. rewrite E. left.
  - apply Hsub. left.
Qed.

Lemma bind_regroup_hasLessons ms :
  filter hasLessons ms ≫= (λ m, filter (owns m) ch)
  = ms ≫= (λ m, filter (owns m) ch).
Proof.
  induction ms as [|m ms IH]; [done|]. rewrite filter_cons.
  case_decide as Hm; rewrite !bind_cons, IH; [done|].
  rewrite filter_none; [done|]. intros l _. by apply owns_no_lessons.
Qed.

Lemma NoDup_regroup ms :
  NoDup ch → NoDup (l_link <$> (ms ≫= m_lessons)) →
  NoDup (ms ≫= (λ m, filter (owns m) ch)).
Proof.
  intros Hch. induction ms as [|m ms IH]; intros Hnd; [constructor|].
  rewrite bind_cons in *. rewrite fmap_app in Hnd.
  apply NoDup_app in Hnd as (_ & Hdisj & Hnd). apply NoDup_app.
  split; [by apply NoDup_filter|]. split; [|by apply IH].
  intros l [Ho _]%list_elem_of_filter (m2 & Hl2 & Hm2)%list_elem_of_bind.
  apply list_elem_of_filter in Hl2 as [Ho2 _].
  apply (Hdisj _ Ho). unfold owns in Ho2.
  apply list_elem_of_fmap in Ho2 as (l2 & -> & Hl2).
  apply list_elem_of_fmap_2, list_elem_of_bind. eauto.
Qed.

(** The regrouped modules hold each lesson of the chain once. *)
Lemma regroup_perm ms :
  ch ≡ₚ ms ≫= m_lessons → NoDup (l_link <$> ch) →
  ms ≫= (λ m, filter (owns m) ch) ≡ₚ ch.
Proof.
  intros Hp Hnd. apply NoDup_Permutation.
  - apply NoDup_regroup; [by eapply NoDup_fmap_1|]. by rewrite <-Hp.
  - by eapply NoDup_fmap_1.
  - intros l. rewrite list_elem_of_bind. split.
    + by intros (m & [_ Hl]%list_elem_of_filter & _).
    + intros Hl. pose proof Hl as Hl'. rewrite Hp in Hl'.
      apply list_elem_of_bind in Hl' as (m & Hlm & Hm).
      exists m. split; [|done]. apply list_elem_of_filter.
      split; [by apply owns_own|done].
Qed.

Lemma flatten_orderModules c ms :
  ch ≡ₚ ms ≫= m_lessons → NoDup (l_link <$> ch) →
  flatten (setModules c (orderModules ch ms)) ≡ₚ ch.
Proof.
  intros Hp Hnd. unfold flatten, setModules, orderModules. cbn [c_modules].
  change (λ m : Module_, m_lessons m) with m_lessons. rewrite bind_app.
  assert (filter (λ m, ¬ hasLessons m) ms ≫= m_lessons = []) as ->.
  { clear. induction ms as [|m ms' IH]; [done|]. rewrite filter_cons.
    case_decide as Hm; [|done]. rewrite bind_cons.
    unfold hasLessons in Hm. apply dec_stable in Hm. rewrite Hm. simpl.
    apply IH. }
  rewrite app_nil_r, list_fmap_bind.
  rewrite sortBy_perm. unfold compose. cbn [setLessons m_lessons].
  rewrite bind_regroup_hasLessons. by apply regroup_perm.
Qed.

(** Ordering the modules a second time changes nothing. *)
Lemma orderModules_idem ms :
  (∀ l, l ∈ ms ≫= m_lessons → l ∈ ch) →
  orderModules ch (orderModules ch ms) = orderModules ch ms.
Proof.
  intros Hsub. unfold orderModules at 1.
  set (ne := setLessons ch <$> sortBy (earliest ch) (filter hasLessons ms)).
  set (em := filter (λ m, ¬ hasLessons m) ms).
  assert (orderModules ch ms = ne ++ em) as -> by done.
  assert (Forall hasLessons ne) as Hne.
  { apply Forall_fmap, Forall_forall. intros m Hm.
    rewrite sortBy_perm in Hm. apply list_elem_of_filter in Hm as [Hm Hin].
    apply hasLessons_setLessons; [|done].
    intros l Hl. apply Hsub, list_elem_of_bind. eauto. }
  assert (Forall (λ m, ¬ hasLessons m) em) as Hem.
  { apply Forall_forall. by intros m [? _]%list_elem_of_filter. }
  assert (filter hasLessons (ne ++ em) = ne) as ->.
  { rewrite filter_app. rewrite (filter_none hasLessons em).
    - rewrite app_nil_r. clear -Hne.
      induction Hne; [done|]. rewrite filter_cons_True by done. by f_equal.
    - rewrite Forall_forall in Hem. done. }
  assert (filter (λ m, ¬ hasLessons m) (ne ++ em) = em) as ->.
  { rewrite filter_app. rewrite (filter_none _ ne).
    - simpl. clear -Hem.
      induction Hem; [done|]. rewrite filter_cons_True by done. by f_equal.
    - rewrite Forall_forall in Hne. intros m Hm Hn. by apply Hn, Hne. }
  f_equal.
  rewrite sortBy_id.
  - unfold ne. rewrite <-list_fmap_compose. apply list_fmap_ext.
    intros i m _. apply setLessons_setLessons.
  - apply Sorted_byKey_fmap; [|apply sortBy_Sorted].
    intros m _. apply earliest_setLessons.
Qed.
End Regroup.

Lemma setModules_props c ms : c_props (setModules c ms) = c_props c.
Proof. done. Qed.

Lemma setModules_setModules c ms ms' :
  setModules (setModules c ms) ms' = setModules c ms'.
Proof. done. Qed.

(** What a successful [sortCourse] returns. *)
Lemma sortCourse_Ok c c' :
  sortCourse c = Ok c' →
  (flatten c = [] ∧ c' = c)
  ∨ (∃ ch, lessonOrder c = Ok ch
           ∧ c' = setModules c (orderModules ch (c_modules c))).
Proof.
  unfold sortCourse. destruct (flatten c) eqn:E.
  - intros [= <-]. by left.
  - destruct (lessonOrder c) as [ch|]; [|done]. intros [= <-]. right. by exists ch.
Qed.

Lemma lessonOrder_perm c c' :
  c_props c' = c_props c → flatten c' ≡ₚ flatten c →
  lessonOrder c' = lessonOrder c.
Proof.
  intros Hprops Hp. unfold lessonOrder. rewrite Hprops.
  destruct (heads (flatten c)) as [|h [|h2 r]] eqn:Hh.
  - unfold heads in *. assert (filter (λ l, l_previous l = None) (flatten c') ≡ₚ []) as H0
      by (by rewrite Hp, Hh).
    apply Permutation_nil_r in H0. by rewrite H0.
  - rewrite (heads_perm _ _ h (symmetry Hp) Hh).
    by rewrite (walk_perm _ _ _ _ _ Hp), (Permutation_length Hp).
  - unfold heads in *.
    assert (filter (λ l, l_previous l = None) (flatten c') ≡ₚ h :: h2 :: r) as H0
      by (by rewrite Hp, Hh).
    apply Permutation_length in H0.
    by destruct (filter _ (flatten c')) as [|? [|??]].
Qed.

(** The lessons of a sorted course are those of the course, each once. *)
Lemma sortCourse_perm c c' : sortCourse c = Ok c' → flatten c' ≡ₚ flatten c.
Proof.
  intros [[_ ->]|(ch & Hch & ->)]%sortCourse_Ok; [done|].
  apply lessonOrder_Ok in Hch as (Hp & Hnd & _).
  rewrite flatten_orderModules; done.
Qed.

Lemma sortCourse_fixed c c' : sortCourse c = Ok c' → sortCourse c' = Ok c'.
Proof.
  intros Hs. pose proof (sortCourse_perm _ _ Hs) as Hperm.
  apply sortCourse_Ok in Hs as [[Hnil ->]|(ch & Hch & ->)].
  - unfold sortCourse. by rewrite Hnil.
  - pose proof Hch as Hch'.
    apply lessonOrder_Ok in Hch' as (Hp & Hnd & Hl & _).
    unfold sortCourse.
    rewrite (lessonOrder_perm c _ (setModules_props _ _) Hperm), Hch. simpl.
    destruct (flatten (setModules c _)) eqn:E; [done|].
    rewrite setModules_setModules, orderModules_idem; [done|].
    intros x Hx. by rewrite Hp.
Qed.

(** ** A course whose lessons form one chain *)

Lemma backLinked_previous p r : backLinked p r → Forall (λ y, l_previous y ≠ None) r.
Proof.
  revert p. induction r as [|y r IH]; intros p; simpl; [constructor|].
  intros [Hy Hr]. constructor; [|by eapply IH].
  intros Hnone. by rewrite Hnone in Hy.
Qed.

Lemma walk_follows fl pre x suf n v :
  NoDup (l_link <$> fl) →
  pre ++ x :: suf ≡ₚ fl →
  linked (x :: suf) →
  (∀ k, k ∈ v → k ∈ l_link <$> pre) →
  length suf < n →
  walk n fl v x = Chain (x :: suf).
Proof.
  intros Hnd. revert pre x n v.
  induction suf as [|y suf IH]; intros pre x n v Hp Hl Hv Hn;
    (destruct n as [|n]; [simpl in Hn; lia|]); simpl in *.
  - by rewrite Hl.
  - destruct Hl as [Hxy Hl].
    destruct (l_next x) as [s|]; [|done]. simpl in Hxy. injection Hxy as Hxy.
    pose proof Hnd as Hnd'.
    rewrite <-Hp, !fmap_app, !fmap_cons in Hnd'.
    apply NoDup_app in Hnd' as (_ & Hpre & Hnd').
    apply NoDup_cons in Hnd' as [Hx _].
    rewrite decide_False.
    + rewrite Hxy, (findByLink_unique fl y Hnd).
      * rewrite (IH (pre ++ [x]) y n (l_link x :: v)); [done| |done| |lia].
        -- by rewrite <-Hp, <-app_assoc.
        -- intros k [->|Hk]%elem_of_cons; rewrite fmap_app, elem_of_app.
           ++ right. left.
           ++ left. by apply Hv.
      * rewrite <-Hp, elem_of_app, !elem_of_cons. auto.
    + rewrite Hxy. intros [Heq|Hin]%elem_of_cons.
      * apply Hx. rewrite <-Heq. left.
      * apply (Hpre _ (Hv _ Hin)). right. left.
Qed.

Lemma lessonOrder_chain c ch : chainOf c ch → lessonOrder c = Ok ch.
Proof.
  intros (Hp & Hnd & Hl & Hb). destruct ch as [|h r]; [done|].
  destruct Hb as [Hh Hb]. unfold lessonOrder.
  assert (heads (flatten c) = [h]) as ->.
  { apply (heads_perm (h :: r)); [done|]. unfold heads.
    rewrite filter_cons_True by done. f_equal. apply filter_none.
    apply backLinked_previous in Hb. rewrite Forall_forall in Hb.
    intros y Hy Hnone. by apply (Hb y Hy). }
  rewrite (walk_follows (flatten c) [] h r).
  - rewrite decide_True; [done|]. by rewrite Hp.
  - by rewrite <-Hp.
  - done.
  - done.
  - by intros k ?%elem_of_nil.
  - rewrite <-Hp. simpl. lia.
Qed.

Lemma linked_lookup ch i x y :
  linked ch → ch !! i = Some x → ch !! S i = Some y →
  s_link <$> l_next x = Some (l_link y).
Proof.
  revert i. induction ch as [|a ch IH]; intros i Hl Hx Hy; [done|].
  destruct ch as [|b ch]; [done|]. destruct Hl as [Hab Hl].
  destruct i as [|i]; simplify_eq/=; [done|]. by eapply IH.
Qed.

Lemma linked_lookup_next ch i x s :
  linked ch → ch !! i = Some x → l_next x = Some s →
  ∃ y, ch !! S i = Some y ∧ s_link s = l_link y.
Proof.
  revert i. induction ch as [|a ch IH]; intros i Hl Hx Hs; [done|].
  destruct ch as [|b ch].
  - destruct i; simplify_eq/=.
  - destruct Hl as [Hab Hl]. destruct i as [|i]; simplify_eq/=.
    + exists b. split; [done|]. rewrite Hs in Hab. by simplify_eq/=.
    + by eapply IH.
Qed.

Lemma linked_last ch t : linked ch → last ch = Some t → l_next t = None.
Proof.
  induction ch as [|a ch IH]; intros Hl Ht; [done|].
  destruct ch as [|b ch]; [by simplify_eq/=|].
  destruct Hl as [_ Hl]. by apply IH.
Qed.

Lemma backLinked_lookup p r i x y :
  backLinked p r → (p :: r) !! i = Some x → (p :: r) !! S i = Some y →
  s_link <$> l_previous y = Some (l_link x).
Proof.
  revert p i. induction r as [|b r IH]; intros p i Hb Hx Hy.
  - destruct i; simplify_eq/=.
  - destruct Hb as [Hpb Hb]. destruct i as [|i]; simplify_eq/=; [done|].
    by eapply IH.
Qed.

(** Lessons with the same link in a duplicate-free chain are the same lesson. *)
Lemma NoDup_link_eq ch x y :
  NoDup (l_link <$> ch) → x ∈ ch → y ∈ ch → l_link x = l_link y → x = y.
Proof.
  intros Hnd [i Hi]%list_elem_of_lookup [j Hj]%list_elem_of_lookup Heq.
  assert (i = j) as ->; [|congruence].
  eapply NoDup_lookup; [done| |]; rewrite list_lookup_fmap.
  - by rewrite Hi.
  - by rewrite Hj, Heq.
Qed.

(** A chain through all the lessons leaves no room for a cycle. *)
Lemma chain_acyclic fl ch x :
  ch ≡ₚ fl → NoDup (l_link <$> ch) → linked ch → ¬ tc (nextRel fl) x x.
Proof.
  intros Hp Hnd Hl Hcyc.
  assert (∀ a b, tc (nextRel fl) a b →
                 ∀ i, ch !! i = Some a → ∃ j, i < j ∧ ch !! j = Some b) as Hfar.
  { induction 1 as [a b (Ha & Hb & Hab)|a b d (Ha & Hb & Hab) _ IH]; intros i Hi.
    - destruct (l_next a) as [s|] eqn:Hs; [|done].
      destruct (linked_lookup_next _ _ _ _ Hl Hi Hs) as (b' & Hb' & Hlink).
      simpl in Hab. exists (S i). split; [lia|]. rewrite Hb'. f_equal.
      apply (NoDup_link_eq ch); [done|by eapply list_elem_of_lookup_2|
                                 by rewrite Hp|congruence].
    - destruct (l_next a) as [s|] eqn:Hs; [|done].
      destruct (linked_lookup_next _ _ _ _ Hl Hi Hs) as (b' & Hb' & Hlink).
      simpl in Hab.
      assert (b' = b) as ->.
      { apply (NoDup_link_eq ch); [done|by eapply list_elem_of_lookup_2|
                                   by rewrite Hp|congruence]. }
      destruct (IH _ Hb') as (j & Hj & Hd). exists j. split; [lia|done]. }
  assert (x ∈ ch) as [i Hi]%list_elem_of_lookup.
  { rewrite Hp. inversion Hcyc as [?? (Hx & _)|??? (Hx & _)]; done. }
  destruct (Hfar _ _ Hcyc _ Hi) as (j & Hj & Hxj).
  assert (i = j); [|lia].
  eapply NoDup_lookup; [by eapply NoDup_fmap_1|done..].
Qed.

(** The loop of the service stops at the first course that faults. *)
Lemma sortEnrolments_Err m k cs c flt :
  m !! k = Some cs → c ∈ cs → sortCourse c = Err flt →
  ∃ flt', sortEnrolments m = Err flt'.
Proof.
  intros Hk Hc Hs. unfold sortEnrolments.
  destruct (rmapM_Err sortCourse cs c flt Hc Hs) as [f1 Hf1].
  edestruct (rmapM_Err (λ kv : string * list Course,
                          rbind (rmapM sortCourse kv.2) (λ cs, Ok (kv.1, cs)))
                       (map_to_list m) (k, cs)) as [f2 Hf2].
  - by apply elem_of_map_to_list.
  - simpl. by rewrite Hf1.
  - rewrite Hf2. by eexists.
Qed.

Lemma lessonOrder_Err c flt :
  lessonOrder c = Err flt → flt = DataIntegrity (c_props c !! "slug").
Proof.
  unfold lessonOrder. destruct (heads (flatten c)) as [|h [|??]]; try congruence.
  destruct (walk _ _ _ h); try congruence. case_decide; congruence.
Qed.

(** ** Modules that are consecutive in the chain *)

Global Instance byKey_trans {A} (key : A → nat) : Transitive (byKey key).
Proof. unfold byKey. intros x y z. lia. Qed.

Lemma before_sorted_suffix pre l : StronglySorted (before (pre ++ l)) l.
Proof.
  revert pre. induction l as [|x l IH]; intros pre; constructor.
  - specialize (IH (pre ++ [x])). by rewrite <-app_assoc in IH.
  - apply Forall_forall. intros y [j Hj]%list_elem_of_lookup.
    exists (length pre), (length pre + S j). split; [|split].
    + by rewrite list_lookup_middle.
    + rewrite lookup_app_r by lia.
      by replace (length pre + S j - length pre) with (S j) by lia.
    + lia.
Qed.

Section Contiguous.
Context (ch : list Lesson).

Lemma before_sorted : StronglySorted (before ch) ch.
Proof. apply (before_sorted_suffix []). Qed.

Lemma StronglySorted_filter {A} (R : relation A) (P : A → Prop)
    `{!∀ x, Decision (P x)} l :
  StronglySorted R l → StronglySorted R (filter P l).
Proof.
  induction 1 as [|x l Hs IH Hx]; [constructor|]. rewrite filter_cons.
  case_decide; [|done]. constructor; [done|].
  rewrite Forall_forall in *. intros y [_ Hy]%list_elem_of_filter. auto.
Qed.

Lemma before_irrefl x y : NoDup ch → before ch x y → before ch y x → False.
Proof.
  intros Hnd (i & j & Hi & Hj & Hij) (j' & i' & Hj' & Hi' & Hji).
  assert (i = i') by (by eapply NoDup_lookup).
  assert (j = j') by (by eapply NoDup_lookup). lia.
Qed.

Lemma earliest_owned m x i :
  ch !! i = Some x → owns m x →
  ∃ z, ch !! earliest ch m = Some z ∧ owns m z ∧ earliest ch m ≤ i.
Proof.
  intros Hi Ho. unfold earliest.
  destruct (list_find (owns m) ch) as [[e z]|] eqn:Hf; simpl.
  - apply list_find_Some in Hf as (He & Hz & Hmin). exists z.
    split; [done|]. split; [done|].
    destruct (decide (e ≤ i)) as [|Hlt]; [done|].
    exfalso. apply (Hmin i x Hi); [lia|done].
  - exfalso. apply list_find_None in Hf. rewrite Forall_forall in Hf.
    apply (Hf x); [by eapply list_elem_of_lookup_2|done].
Qed.

(** The blocks of modules sorted by their earliest lesson follow one
    another in the chain. *)
Lemma blocks_sorted ms :
  StronglySorted (byKey (earliest ch)) ms →
  NoDup (l_link <$> (ms ≫= m_lessons)) →
  contiguous ms ch →
  StronglySorted (before ch) (ms ≫= (λ m, filter (owns m) ch)).
Proof.
  induction 1 as [|m ms Hs IH Hm]; intros Hnd Hcont; [constructor|].
  rewrite bind_cons in *. rewrite fmap_app in Hnd.
  apply NoDup_app in Hnd as (_ & Hdisj & Hnd).
  apply StronglySorted_app_2.
  - intros x y [Hox [px Hpx]%list_elem_of_lookup]%list_elem_of_filter
           (m2 & [Hoy [py Hpy]%list_elem_of_lookup]%list_elem_of_filter & Hm2)
             %list_elem_of_bind.
    assert (∀ l, owns m l → owns m2 l → False) as Hexcl.
    { intros l Hl1 Hl2. apply (Hdisj _ Hl1). unfold owns in Hl2.
      apply list_elem_of_fmap in Hl2 as (l2 & -> & Hl2).
      apply list_elem_of_fmap_2, list_elem_of_bind. eauto. }
    rewrite Forall_forall in Hm. pose proof (Hm _ Hm2) as Hle. unfold byKey in Hle.
    destruct (earliest_owned m x px Hpx Hox) as (z1 & Hz1 & Hoz1 & He1).
    destruct (earliest_owned m2 y py Hpy Hoy) as (z2 & Hz2 & Hoz2 & He2).
    exists px, py. split; [done|]. split; [done|].
    destruct (decide (px < py)) as [|Hge]; [done|]. exfalso.
    apply (Hexcl z2); [|done].
    apply (Hcont m (earliest ch m) (earliest ch m2) px z1 z2 x);
      [left|done..|lia|done|done].
  - apply StronglySorted_filter, before_sorted.
  - apply IH; [done|]. intros m' i j k x y z Hm'. apply Hcont. by right.
Qed.
End Contiguous.

Lemma bind_no_lessons ms : filter (λ m, ¬ hasLessons m) ms ≫= m_lessons = [].
Proof.
  induction ms as [|m ms' IH]; [done|]. rewrite filter_cons.
  case_decide as Hm; [|done]. rewrite bind_cons.
  unfold hasLessons in Hm. apply dec_stable in Hm. by rewrite Hm.
Qed.

Lemma bind_hasLessons ms : filter hasLessons ms ≫= m_lessons = ms ≫= m_lessons.
Proof.
  induction ms as [|m ms' IH]; [done|]. rewrite filter_cons.
  case_decide as Hm; rewrite !bind_cons, IH; [done|].
  unfold hasLessons in Hm. apply dec_stable in Hm. by rewrite Hm.
Qed.

(** When every module's lessons are consecutive in the chain, the sorted
    course lists the lessons in chain order. *)
Lemma flatten_contiguous c ch :
  ch ≡ₚ flatten c → NoDup (l_link <$> ch) → contiguous (c_modules c) ch →
  flatten (setModules c (orderModules ch (c_modules c))) = ch.
Proof.
  intros Hp Hnd Hcont.
  apply (StronglySorted_unique_strong (before ch)).
  - intros x y _ Hy Hxy Hyx. exfalso.
    eapply (before_irrefl ch); [by eapply NoDup_fmap_1|done..].
  - unfold flatten, setModules, orderModules. cbn [c_modules].
    change (λ m : Module_, m_lessons m) with m_lessons. rewrite bind_app.
    rewrite bind_no_lessons, app_nil_r, list_fmap_bind. unfold compose. cbn [setLessons m_lessons].
    apply blocks_sorted.
    + apply Sorted_StronglySorted; [apply _|apply sortBy_Sorted].
    + by rewrite sortBy_perm, bind_hasLessons, <-Hp.
    + intros m i j k x y z Hm. apply Hcont.
      rewrite sortBy_perm in Hm. by apply list_elem_of_filter in Hm as [_ ?].
  - apply before_sorted.
  - by apply flatten_orderModules.
Qed.

Lemma block_between {A} (l pre blk post : list A) i j k x y z :
  NoDup l → pre ++ blk ++ post = l →
  l !! i = Some x → l !! j = Some y → l !! k = Some z → i ≤ j ≤ k →
  x ∈ blk → z ∈ blk → y ∈ blk.
Proof.
  intros Hnd <- Hi Hj Hk Hle [p Hp]%list_elem_of_lookup [q Hq]%list_elem_of_lookup.
  assert (∀ n a, blk !! n = Some a →
                 (pre ++ blk ++ post) !! (length pre + n) = Some a) as Hblk.
  { intros n a Hn. rewrite lookup_app_r by lia.
    replace (length pre + n - length pre) with n by lia.
    by apply lookup_app_l_Some. }
  assert (i = length pre + p) as ->
    by (apply (NoDup_lookup _ _ _ x Hnd Hi), Hblk, Hp).
  assert (k = length pre + q) as ->
    by (apply (NoDup_lookup _ _ _ z Hnd Hk), Hblk, Hq).
  apply lookup_lt_Some in Hq.
  rewrite lookup_app_r in Hj by lia. rewrite lookup_app_l in Hj by lia.
  by eapply list_elem_of_lookup_2.
Qed.

(** When the lessons of the sorted course, module after module, are the
    chain itself, the lessons of every module are consecutive in it. *)
Lemma contiguous_flatten c ch :
  NoDup (l_link <$> ch) →
  flatten (setModules c (orderModules ch (c_modules c))) = ch →
  contiguous (c_modules c) ch.
Proof.
  intros Hnd Heq m i j k x y z Hm Hi Hj Hk Hle Hx Hz.
  unfold flatten, setModules, orderModules in Heq. cbn [c_modules] in Heq.
  change (λ m : Module_, m_lessons m) with m_lessons in Heq.
  rewrite bind_app, bind_no_lessons, app_nil_r, list_fmap_bind in Heq.
  unfold compose in Heq. cbn [setLessons m_lessons] in Heq.
  assert (m ∈ sortBy (earliest ch) (filter hasLessons (c_modules c))) as Hin.
  { rewrite sortBy_perm. apply list_elem_of_filter. split; [|done].
    destruct (decide (hasLessons m)) as [|Hno]; [done|].
    by destruct (owns_no_lessons m x Hno). }
  apply list_elem_of_split in Hin as (s1 & s2 & Hs). rewrite Hs in Heq.
  rewrite bind_app, bind_cons in Heq.
  assert (y ∈ filter (owns m) ch) as Hy.
  { eapply (block_between ch _ (filter (owns m) ch) _ i j k x y z);
      [by eapply NoDup_fmap_1|exact Heq|done..| |].
    - apply list_elem_of_filter. split; [done|by eapply list_elem_of_lookup_2].
    - apply list_elem_of_filter. split; [done|by eapply list_elem_of_lookup_2]. }
  by apply list_elem_of_filter in Hy as [? _].
Qed.

(** * The claims about the resolver *)

(** C1, as stated, fails: the lessons of [Store.interleavedCourse] form the
    single chain a, b, c, but module m1 holds a and c and module m2 holds b.
    The sorted course lists a and c under m1 and then b under m2, so its
    flattened lesson sequence is a, c, b and not the chain. *)
Lemma interleaved_modules_not_chain :
  chainOf Store.interleavedCourse Store.interleavedOrder
  ∧ l_link <$> Store.interleavedOrder
    = [Some "/courses/c1/m1/a"; Some "/courses/c1/m2/b";
       Some "/courses/c1/m1/c"]
  ∧ ∃ c', sortCourse Store.interleavedCourse = Ok c'
          ∧ l_link <$> flatten c'
            = [Some "/courses/c1/m1/a"; Some "/courses/c1/m1/c";
               Some "/courses/c1/m2/b"]
          ∧ flatten c' ≠ Store.interleavedOrder.
Proof.
  split; [|split; [reflexivity|]].
  - split; [|split; [|split]].
    + apply (bool_decide_unpack _). vm_compute. exact I.
    + apply (bool_decide_unpack _). vm_compute. exact I.
    + vm_compute. repeat split.
    + vm_compute. repeat split.
  - eexists. split; [vm_compute; reflexivity|].
    split; [vm_compute; reflexivity|].
    intros Heq. apply (f_equal (fmap l_link)) in Heq. vm_compute in Heq.
    discriminate Heq.
Qed.

(** C1, amended: when the lessons of a course form the single chain [ch],
    the resolver succeeds; its flattened order is [ch]; the sorted course
    holds the same lessons, each module carrying the subsequence of [ch]
    that belongs to it; the modules with lessons come first, ordered by the
    position of their earliest lesson in [ch], followed by the modules
    without lessons in their original order; the stubs of the lessons agree
    with [ch] whatever module a neighbour is in; and the lessons of the
    sorted course, module after module, are [ch] itself exactly when the
    lessons of every module are consecutive in [ch]. *)
Theorem sortCourse_chain c ch :
  chainOf c ch →
  ∃ c', sortCourse c = Ok c'
    ∧ lessonOrder c = Ok ch
    ∧ flatten c' ≡ₚ ch
    ∧ (∀ m', m' ∈ c_modules c' → m_lessons m' = filter (owns m') ch)
    ∧ (∃ ne, c_modules c' = ne ++ filter (λ m, ¬ hasLessons m) (c_modules c)
             ∧ ne ≡ₚ setLessons ch <$> filter hasLessons (c_modules c)
             ∧ Forall hasLessons ne
             ∧ Sorted (byKey (earliest ch)) ne)
    ∧ (∀ i x y, ch !! i = Some x → ch !! S i = Some y →
         x ∈ flatten c' ∧ y ∈ flatten c'
         ∧ s_link <$> l_next x = Some (l_link y)
         ∧ s_link <$> l_previous y = Some (l_link x))
    ∧ (∀ h, head ch = Some h → l_previous h = None)
    ∧ (∀ t, last ch = Some t → l_next t = None)
    ∧ (flatten c' = ch ↔ contiguous (c_modules c) ch).
Proof.
  intros Hchain. pose proof (lessonOrder_chain _ _ Hchain) as Hord.
  destruct Hchain as (Hp & Hnd & Hl & Hb).
  assert (flatten c ≠ []) as Hne.
  { intros Hnil. rewrite Hnil in Hp. apply Permutation_nil_r in Hp.
    by rewrite Hp in Hl. }
  set (c' := setModules c (orderModules ch (c_modules c))).
  assert (sortCourse c = Ok c') as Hs.
  { unfold sortCourse. rewrite Hord. by destruct (flatten c). }
  assert (flatten c' ≡ₚ ch) as Hp' by (by apply flatten_orderModules).
  exists c'. split; [done|]. split; [done|]. split; [done|].
  split; [|split; [|split; [|split; [|split]]]].
  - intros m' Hm'. simpl in Hm'. unfold orderModules in Hm'.
    apply elem_of_app in Hm' as [Hm'|Hm'].
    + apply list_elem_of_fmap in Hm' as (m & -> & _). simpl.
      apply filter_ext_elem. intros l Hin. symmetry. by apply owns_setLessons.
    + apply list_elem_of_filter in Hm' as [Hm' _].
      rewrite filter_none; [|by intros l _; apply owns_no_lessons].
      unfold hasLessons in Hm'. by apply dec_stable in Hm'.
  - exists (setLessons ch <$> sortBy (earliest ch) (filter hasLessons (c_modules c))).
    split; [done|]. split; [by rewrite sortBy_perm|]. split.
    + apply Forall_fmap, Forall_forall. intros m Hm.
      rewrite sortBy_perm in Hm. apply list_elem_of_filter in Hm as [Hm Hin].
      apply hasLessons_setLessons; [|done].
      intros l Hlm. rewrite Hp. apply list_elem_of_bind. eauto.
    + apply Sorted_byKey_fmap; [|apply sortBy_Sorted].
      intros m _. apply earliest_setLessons.
  - intros i x y Hx Hy. rewrite !Hp'.
    split; [by eapply list_elem_of_lookup_2|].
    split; [by eapply list_elem_of_lookup_2|].
    split; [by eapply linked_lookup|].
    destruct ch as [|h r]; [done|]. destruct Hb as [_ Hb].
    by eapply backLinked_lookup.
  - intros h Hh. destruct ch as [|h' r]; simplify_eq/=. by destruct Hb.
  - intros t Ht. by eapply linked_last.
  - split; [intros Heq; by apply contiguous_flatten|].
    intros Hcont. by apply flatten_contiguous.
Qed.

Lemma chained_is_chain : chainOf Store.chainedCourse Store.chainedOrder.
Proof.
  split; [|split; [|split]].
  - apply (bool_decide_unpack _). vm_compute. exact I.
  - apply (bool_decide_unpack _). vm_compute. exact I.
  - vm_compute. repeat split.
  - vm_compute. repeat split.
Defined.

Lemma sortCourse_chain_witness :
  ∃ c', sortCourse Store.chainedCourse = Ok c'
    ∧ m_link <$> c_modules c' = [Some "/courses/c1/m1"; Some "/courses/c1/m2"]
    ∧ flatten c' = Store.chainedOrder
    ∧ (s_link <$> l_next (lessonOf Store.chained Store.c1 Store.m1
                                   (Some Store.e1) Store.lb))
      = Some (Some "/courses/c1/m2/c").
Proof.
  destruct (sortCourse_chain Store.chainedCourse Store.chainedOrder
                            chained_is_chain) as (c' & Hs & _).
  exists c'. split; [done|].
  assert (c' = setModules Store.chainedCourse
                 (orderModules Store.chainedOrder
                               (c_modules Store.chainedCourse))) as ->.
  { vm_compute in Hs. injection Hs as <-. vm_compute. reflexivity. }
  repeat split; reflexivity.
Defined.

(** C7: sorting a sorted course returns it unchanged, and a fault stays the
    fault it was. *)
Theorem sortCourse_idempotent c :
  rbind (sortCourse c) sortCourse = sortCourse c.
Proof.
  destruct (sortCourse c) as [c'|flt] eqn:Hs; simpl; [|done].
  exact (sortCourse_fixed c c' Hs).
Qed.

(** The resolver on an inconsistent chain: for a course with at least one
    lesson whose [next] stubs have no head, several heads or a cycle, the
    walk stops (its fuel is never used up) and the outcome is the
    data-integrity fault with the slug of the course; whenever the resolver
    does return a course, that course holds the same lessons, none lost and
    none repeated.  A course without lessons has no head either and is
    returned as it is. *)
Lemma inconsistent_chain_faults c :
  (flatten c = [] → heads (flatten c) = [] ∧ sortCourse c = Ok c)
  ∧ (flatten c ≠ [] →
     length (heads (flatten c)) ≠ 1 ∨ (∃ x, tc (nextRel (flatten c)) x x) →
     sortCourse c = Err (DataIntegrity (c_props c !! "slug")))
  ∧ (∀ h, h ∈ flatten c →
          walk (length (flatten c)) (flatten c) [] h ≠ OutOfFuel)
  ∧ (∀ c', sortCourse c = Ok c' → flatten c' ≡ₚ flatten c).
Proof.
  split; [|split; [|split]].
  - intros Hnil. unfold sortCourse. by rewrite Hnil.
  - intros Hne Hbad.
    unfold sortCourse. destruct (flatten c) as [|l0 fl0] eqn:Hfl; [done|].
    rewrite <-Hfl in *. destruct (lessonOrder c) as [ch|flt] eqn:Hord; simpl.
    + exfalso. apply lessonOrder_Ok in Hord as (Hp & Hnd & Hl & h & Hh & _).
      destruct Hbad as [Hlen|[x Hcyc]].
      * by rewrite Hh in Hlen.
      * by eapply chain_acyclic.
    + by rewrite (lessonOrder_Err _ _ Hord).
  - exact (lessonOrder_never_out_of_fuel c).
  - exact (sortCourse_perm c).
Qed.

(** * Further properties of the query *)

Lemma rows_user_id g id u k c : ((u, k), c) ∈ rows g id → u_id u = Some id.
Proof.
  unfold rows. intros ([[un cn] e] & [= -> _ _] & Hb)%list_elem_of_fmap.
  apply elem_of_bindings in Hb as (Hun & _ & _).
  unfold matchUser in Hun. apply list_elem_of_filter in Hun as [[_ Hid] _].
  done.
Qed.

Lemma getUserEnrolments_Ok g id u m :
  getUserEnrolments g id = Ok {| user := Some u; enrolments := Some m |} →
  ∃ m0 rest, read g id = (u, m0) :: rest ∧ sortEnrolments m0 = Ok m.
Proof.
  unfold getUserEnrolments. destruct (read g id) as [|[u' m0] rest]; [done|].
  simpl. destruct (sortEnrolments m0) as [m1|] eqn:Hs; [|done]. simpl.
  intros [= -> ->]. by exists m0, rest.
Qed.

(** X1: a result has both fields or neither, and the user it carries has
    the identifier that was asked for. *)
Theorem result_user_id g id res :
  getUserEnrolments g id = Ok res →
  (user res = None ↔ enrolments res = None)
  ∧ (∀ u, user res = Some u → u_id u = Some id).
Proof.
  unfold getUserEnrolments.
  destruct (read g id) as [|[u' m0] rest] eqn:Hread.
  - intros [= <-]. simpl. split; [done|]. by intros u.
  - simpl. destruct (sortEnrolments m0) as [m1|]; [|done]. simpl.
    intros [= <-]. simpl. split; [done|]. intros u [= <-].
    assert ((u', m0) ∈ read g id) as Hin by (rewrite Hread; left).
    apply read_user in Hin as [k Hk].
    apply list_elem_of_fmap in Hk as ([uk c] & ? & Hrow). simpl in *. subst.
    by eapply rows_user_id.
Qed.

Lemma result_user_id_witness :
  getUserEnrolments Store.catalog "u1"
  = Ok {| user := Some (userOf Store.u1);
          enrolments := Some Store.catalogEnrolments |}
  ∧ u_id (userOf Store.u1) = Some "u1".
Proof.
  split; [reflexivity|].
  apply (result_user_id Store.catalog "u1"
           {| user := Some (userOf Store.u1);
              enrolments := Some Store.catalogEnrolments |});
    reflexivity.
Defined.

(** The list the result binds to a status, read off the rows. *)
Lemma result_lookup g id u m k cs' :
  getUserEnrolments g id = Ok {| user := Some u; enrolments := Some m |} →
  m !! k = Some cs' ↔
    filter (λ r, r.1 = (u, k)) (rows g id) ≠ []
    ∧ Forall2 (λ r c', sortCourse r.2 = Ok c')
              (filter (λ r, r.1 = (u, k)) (rows g id)) cs'.
Proof.
  intros (m0 & rest & Hread & Hsort)%getUserEnrolments_Ok.
  assert ((u, m0) ∈ read g id) as Hin by (rewrite Hread; left).
  split.
  - intros Hk.
    destruct (sortEnrolments_lookup_1 _ _ Hsort _ _ Hk) as (cs & Hcs & Hs).
    apply (read_lookup g id u m0 k cs Hin) in Hcs as [Hrow ->].
    split.
    + apply list_elem_of_fmap in Hrow as ([uk c] & ? & Hrow). simpl in *. subst.
      intros Hnil. by eapply (filter_nil_not_elem_of _ _ ((u, k), c)).
    + apply rmapM_Ok in Hs. by apply Forall2_fmap_l in Hs.
  - intros [Hne HF].
    assert (m0 !! k = Some (filter (λ r, r.1 = (u, k)) (rows g id)).*2) as Hk.
    { apply (read_lookup g id u m0 k _ Hin). split; [|done].
      destruct (filter _ (rows g id)) as [|r rs] eqn:E; [done|].
      assert (r ∈ filter (λ r, r.1 = (u, k)) (rows g id)) as Hr
        by (rewrite E; left).
      apply list_elem_of_filter in Hr as [Hr1 Hr2].
      apply list_elem_of_fmap. by exists r. }
    destruct (sortEnrolments_lookup_2 _ _ Hsort _ _ Hk) as (cs2 & Hcs2 & Hs).
    rewrite Hcs2. f_equal.
    assert (rmapM sortCourse (filter (λ r, r.1 = (u, k)) (rows g id)).*2
            = Ok cs') as Hs'.
    { apply rmapM_Ok, Forall2_fmap_l. exact HF. }
    congruence.
Qed.

(** X2: the list bound to a status holds the courses of exactly the rows
    that carry the result's user and that status, each as [sortCourse]
    returns it, in the order of the rows. *)
Theorem enrolments_values g id u m k cs' :
  getUserEnrolments g id = Ok {| user := Some u; enrolments := Some m |} →
  m !! k = Some cs' ↔
    filter (λ r, r.1 = (u, k)) (rows g id) ≠ []
    ∧ Forall2 (λ r c', sortCourse r.2 = Ok c')
              (filter (λ r, r.1 = (u, k)) (rows g id)) cs'.
Proof. apply result_lookup. Qed.

Lemma enrolments_values_witness :
  Store.catalogEnrolments !! STATUS_AVAILABLE
  = Some [Store.sorted (courseOf Store.catalog Store.c1 None);
          Store.sorted (courseOf Store.catalog Store.c2 None)]
  ↔ filter (λ r, r.1 = (userOf Store.u1, STATUS_AVAILABLE))
           (rows Store.catalog "u1") ≠ []
    ∧ Forall2 (λ r c', sortCourse r.2 = Ok c')
              (filter (λ r, r.1 = (userOf Store.u1, STATUS_AVAILABLE))
                      (rows Store.catalog "u1"))
              [Store.sorted (courseOf Store.catalog Store.c1 None);
               Store.sorted (courseOf Store.catalog Store.c2 None)].
Proof.
  apply (enrolments_values Store.catalog "u1" (userOf Store.u1)
           Store.catalogEnrolments).
  reflexivity.
Defined.

Lemma optionalEnrolment_nonempty g u c : optionalEnrolment g u c ≠ [].
Proof. unfold optionalEnrolment. by destruct (enrolmentMatches g u c). Qed.



Lemma remove_dups_constant {A} `{EqDecision A} (l : list A) x :
  l ≠ [] → (∀ y, y ∈ l → y = x) → remove_dups l = [x].
Proof.
  intros Hne Hall.
  pose proof (NoDup_remove_dups l) as Hnd.
  assert (∀ y, y ∈ remove_dups l → y = x) as Hall'
    by (intros y Hy; apply Hall; by apply elem_of_remove_dups).
  assert (x ∈ remove_dups l) as Hx.
  { apply elem_of_remove_dups. destruct l as [|y l']; [done|].
    rewrite <-(Hall y) by left. left. }
  destruct (remove_dups l) as [|a [|b r]].
  - by apply elem_of_nil in Hx.
  - f_equal. apply Hall'. left.
  - exfalso. apply NoDup_cons in Hnd as [Hab _]. apply Hab.
    rewrite (Hall' a) by left. rewrite (Hall' b) by (right; left). left.
Qed.

(** X4: when exactly one [User] node carries the identifier and the catalog
    is not empty, the query returns exactly one record, the one of that
    node: reading [records[0]] leaves nothing behind. *)
Theorem single_user_single_record g id un :
  matchUser g id = [un] → matchCourse g ≠ [] →
  ∃ m, read g id = [(userOf un, m)].
Proof.
  intros Hu Hc.
  assert (∀ r, r ∈ rows g id → r.1.1 = userOf un) as Hrows.
  { intros r Hr. unfold rows in Hr.
    apply list_elem_of_fmap in Hr as ([[u c] e] & -> & Hb).
    apply elem_of_bindings in Hb as (Hun & _ & _). rewrite Hu in Hun.
    by apply list_elem_of_singleton in Hun as ->. }
  assert (rows g id ≠ []) as Hne.
  { destruct (matchCourse g) as [|c cs] eqn:Hcs; [done|].
    destruct (optionalEnrolment g un c) as [|e es] eqn:He;
      [by apply optionalEnrolment_nonempty in He|].
    assert (((userOf un, statusOf e), courseOf g c e) ∈ rows g id) as Hin.
    { unfold rows. apply list_elem_of_fmap. exists (un, c, e). split; [done|].
      apply elem_of_bindings. rewrite Hu, Hcs, He. repeat split; left. }
    intros Hnil. rewrite Hnil in Hin. by apply elem_of_nil in Hin. }
  unfold read.
  set (byStatus := collect (rows g id)).
  set (regroup := λ r : User * string * list Course, (r.1.1, (r.1.2, r.2))).
  assert ((regroup <$> byStatus).*1 ≠ []) as Hne2.
  { unfold byStatus, collect. destruct (rows g id) as [|r rs]; [done|].
    intros Hnil. apply fmap_nil_inv, fmap_nil_inv, fmap_nil_inv in Hnil.
    assert (r.1 ∈ remove_dups ((r :: rs).*1)) as Hin
      by (apply elem_of_remove_dups; left).
    rewrite Hnil in Hin. by apply elem_of_nil in Hin. }
  assert (∀ y, y ∈ (regroup <$> byStatus).*1 → y = userOf un) as Hall.
  { intros y ([u' p] & -> & Hy)%list_elem_of_fmap.
    apply list_elem_of_fmap in Hy as ([[u2 k] cs] & [= -> ->] & Hy).
    apply elem_of_collect in Hy as [Hy _].
    apply list_elem_of_fmap in Hy as (r & Hr & Hin).
    specialize (Hrows r Hin). rewrite <-Hr in Hrows. done. }
  unfold collect at 1.
  rewrite (remove_dups_constant _ (userOf un) Hne2 Hall). simpl.
  by eexists.
Qed.

Lemma single_user_single_record_witness :
  ∃ m, read Store.chained "u1" = [(userOf Store.u1, m)].
Proof.
  apply (single_user_single_record Store.chained "u1" Store.u1).
  - reflexivity.
  - vm_compute. discriminate.
Defined.

(** ** Links and neighbours *)

Lemma append_cons x (a b : string) : String x a +:+ b = String x (a +:+ b).
Proof. reflexivity. Qed.

Lemma append_nil (b : string) : "" +:+ b = b.
Proof. reflexivity. Qed.

Lemma append_assoc (a b c : string) : (a +:+ b) +:+ c = a +:+ (b +:+ c).
Proof.
  induction a as [|x a IH]; [done|]. rewrite !append_cons. by f_equal.
Qed.

Lemma append_slash_inj (a a' b b' : string) :
  noSlash a → noSlash a' →
  a +:+ "/" +:+ b = a' +:+ "/" +:+ b' → a = a' ∧ b = b'.
Proof.
  revert a'. induction a as [|x a IH]; intros [|x' a'] Ha Ha' Heq;
    rewrite ?append_cons, ?append_nil in Heq; simpl in Ha, Ha'.
  - by simplify_eq.
  - destruct Ha' as [Hx' _]. by simplify_eq.
  - destruct Ha as [Hx _]. by simplify_eq.
  - destruct Ha as [_ Ha], Ha' as [_ Ha']. injection Heq as -> Heq.
    destruct (IH a' Ha Ha' Heq) as [-> ->]. done.
Qed.

(** X5: inside one course a link names one lesson of one module: two
    lessons with the same (non-null) link have the same module slug and the
    same lesson slug, as long as module slugs hold no ["/"]. *)
Theorem lesson_link_injective g c m m' e e' l l' link ms ms' :
  prop m "slug" = Some ms → prop m' "slug" = Some ms' →
  noSlash ms → noSlash ms' →
  l_link (lessonOf g c m e l) = Some link →
  l_link (lessonOf g c m' e' l') = Some link →
  ms = ms' ∧ prop l "slug" = prop l' "slug".
Proof.
  intros Hm Hm' Hs Hs'. simpl. rewrite Hm, Hm'.
  destruct (prop c "slug") as [cs|]; [|done].
  destruct (prop l "slug") as [ls|]; [|done].
  destruct (prop l' "slug") as [ls'|]; [|done]. simpl.
  intros [= <-] Heq. apply (inj Some) in Heq. rewrite !append_assoc in Heq.
  apply (inj (String.app "/courses/")), (inj (String.app cs)) in Heq.
  apply (inj (String.app "/")) in Heq.
  apply append_slash_inj in Heq as [-> ->]; done.
Qed.

Lemma lesson_link_injective_witness :
  "m1" = "m1" ∧ prop Store.la "slug" = prop Store.la "slug".
Proof.
  apply (lesson_link_injective Store.chained Store.c1 Store.m1 Store.m1
           None (Some Store.e1) Store.la Store.la "/courses/c1/m1/a"
           "m1" "m1");
    try reflexivity; simpl; repeat split; discriminate.
Defined.

Section Duality.
Context (g : Graph).
Hypothesis Hids : NoDup (nid <$> nodes g).

Lemma nodeById_inv i b : nodeById g i = Some b → b ∈ nodes g ∧ nid b = i.
Proof.
  unfold nodeById. intros Hh.
  assert (b ∈ filter (λ n, nid n = i) (nodes g)) as Hin.
  { destruct (filter _ (nodes g)); simplify_eq/=. left. }
  apply list_elem_of_filter in Hin as [? ?]. done.
Qed.

Lemma nodeById_Some b : b ∈ nodes g → nodeById g (nid b) = Some b.
Proof.
  intros Hb. unfold nodeById.
  destruct (filter (λ n, nid n = nid b) (nodes g)) as [|x r] eqn:E.
  - exfalso. by eapply (filter_nil_not_elem_of _ _ b E).
  - simpl. f_equal.
    assert (x ∈ filter (λ n, nid n = nid b) (nodes g)) as Hx
      by (rewrite E; left).
    apply list_elem_of_filter in Hx as [Hid Hx].
    apply list_elem_of_lookup in Hx as [i Hi].
    apply list_elem_of_lookup in Hb as [j Hj].
    assert (i = j) as ->; [|congruence].
    eapply NoDup_lookup; [exact Hids| |]; rewrite list_lookup_fmap.
    + by rewrite Hi.
    + by rewrite Hj, Hid.
Qed.

Lemma elem_of_outgoing a b ty :
  b ∈ nodes g →
  b ∈ outgoing g a ty ↔
    ∃ r, r ∈ rels g ∧ src r = nid a ∧ rtype r = ty ∧ dst r = nid b.
Proof.
  intros Hb. unfold outgoing. rewrite list_elem_of_bind. split.
  - intros (r & Hin & [[Hs Ht] Hr]%list_elem_of_filter).
    destruct (nodeById g (dst r)) as [n|] eqn:Hn;
      [|by apply elem_of_nil in Hin].
    apply list_elem_of_singleton in Hin as ->.
    apply nodeById_inv in Hn as [_ Hn]. by exists r.
  - intros (r & Hr & Hs & Ht & Hd). exists r. split.
    + rewrite Hd, nodeById_Some by done. left.
    + by apply list_elem_of_filter.
Qed.

Lemma elem_of_incoming a b ty :
  b ∈ nodes g →
  b ∈ incoming g a ty ↔
    ∃ r, r ∈ rels g ∧ dst r = nid a ∧ rtype r = ty ∧ src r = nid b.
Proof.
  intros Hb. unfold incoming. rewrite list_elem_of_bind. split.
  - intros (r & Hin & [[Hs Ht] Hr]%list_elem_of_filter).
    destruct (nodeById g (src r)) as [n|] eqn:Hn;
      [|by apply elem_of_nil in Hin].
    apply list_elem_of_singleton in Hin as ->.
    apply nodeById_inv in Hn as [_ Hn]. by exists r.
  - intros (r & Hr & Hs & Ht & Hd). exists r. split.
    + rewrite Hd, nodeById_Some by done. left.
    + by apply list_elem_of_filter.
Qed.
End Duality.

(** X6: in a store whose node identifiers are distinct, [next] and
    [previous] mirror each other: for lessons [l] and [n] with owners [m]
    and [nm], [n] (in [nm]) is a candidate for the [next] of [l] exactly
    when [l] (in [m]) is a candidate for the [previous] of [n]; and the
    link of a stub is the link its lesson carries inside its owner. *)
Theorem next_previous_dual g c e l n m nm :
  NoDup (nid <$> nodes g) → l ∈ nodes g → n ∈ nodes g →
  m ∈ incoming g l "HAS_LESSON" → nm ∈ incoming g n "HAS_LESSON" →
  ((n, nm) ∈ nextMatches g l ↔ (l, m) ∈ previousMatches g n)
  ∧ s_link (stubOf c (n, nm)) = l_link (lessonOf g c nm e n)
  ∧ s_link (stubOf c (l, m)) = l_link (lessonOf g c m e l).
Proof.
  intros Hids Hl Hn Hm Hnm. split; [|done].
  rewrite elem_of_nextMatches, elem_of_previousMatches.
  rewrite (elem_of_outgoing g Hids l n) by done.
  rewrite (elem_of_incoming g Hids n l) by done.
  split.
  - intros [(r & Hr & Hs & Ht & Hd) _]. split; [|done]. by exists r.
  - intros [(r & Hr & Hd & Ht & Hs) _]. split; [|done]. by exists r.
Qed.

Lemma next_previous_dual_witness :
  ((Store.lc, Store.m2) ∈ nextMatches Store.chained Store.lb
   ↔ (Store.lb, Store.m1) ∈ previousMatches Store.chained Store.lc)
  ∧ s_link (stubOf Store.c1 (Store.lc, Store.m2))
    = l_link (lessonOf Store.chained Store.c1 Store.m2 None Store.lc)
  ∧ s_link (stubOf Store.c1 (Store.lb, Store.m1))
    = l_link (lessonOf Store.chained Store.c1 Store.m1 None Store.lb).
Proof.
  apply (next_previous_dual Store.chained Store.c1 None
           Store.lb Store.lc Store.m1 Store.m2).
  - apply (bool_decide_unpack _). vm_compute. exact I.
  - cbn. do 5 right. left.
  - cbn. do 6 right. left.
  - assert (incoming Store.chained Store.lb "HAS_LESSON" = [Store.m1]) as ->
      by reflexivity.
    left.
  - assert (incoming Store.chained Store.lc "HAS_LESSON" = [Store.m2]) as ->
      by reflexivity.
    left.
Defined.

(** * Properties of the route handlers *)

Local Set Warnings "-clear-no-such-hyp".

Lemma findBySlug_Some {A} (slugOf : A → option string) slug (items : list A) x :
  findBySlug slugOf slug items = Some x → x ∈ items ∧ slugOf x = Some slug.
Proof.
  unfold findBySlug. intros Hhead.
  assert (x ∈ filter (λ x, slugOf x = Some slug) items) as Hin.
  { destruct (filter _ items) as [|y r]; simplify_eq/=. left. }
  by apply list_elem_of_filter in Hin as [? ?].
Qed.

Section RouteFacts.
Context {AuthUser Token Doc Grouped Categories : Type}.

Local Abbreviation Ev := (@Event Doc Grouped Categories).

(** X7: once the user, the token and the enrolment are there, the enrol
    route answers with one redirect, to the link of the next module or else
    to the course page, whatever [createSandbox] does; a sandbox is asked
    for exactly when the course has a non-empty use case. *)
Theorem getEnrol_redirects
    (getUser : outcome (option AuthUser)) (getToken : outcome Token)
    enrolInCourse createSandbox course user token en :
  getUser = Returns user → getToken = Returns token →
  enrolInCourse course user = Returns en →
  answers (getEnrol getUser getToken enrolInCourse createSandbox course : list Ev)
  = [Redirect (orElse (en_nextModule en ≫= m_link)
                      ("/courses/" +:+ tpl (cp_props (en_course en) !! "slug")
                         +:+ "/"))]
  ∧ ∀ uc, CreateSandbox uc
            ∈ (getEnrol getUser getToken enrolInCourse createSandbox course
                 : list Ev)
          ↔ cp_props (en_course en) !! "usecase" = Some uc ∧ uc ≠ "".
Proof.
  intros -> -> Hen. unfold getEnrol. cbn. rewrite Hen. cbn.
  destruct (cp_props (en_course en) !! "usecase") as [uc0|] eqn:Huc; cbn;
    [destruct (decide (uc0 = "")) as [->|Hne]; cbn;
     [|destruct (createSandbox token uc0) as [sb|err]; cbn]|];
    (split; [done|]); intros uc;
    rewrite ?elem_of_cons, ?elem_of_nil; naive_solver.
Qed.

(** X8: the enrol route answers exactly once, and it calls [next] only with
    what [getUser], [getToken] or [enrolInCourse] threw: a failure of
    [createSandbox] is logged and never reaches [next]. *)
Theorem getEnrol_answers_once
    (getUser : outcome (option AuthUser)) (getToken : outcome Token)
    enrolInCourse createSandbox course :
  ∃ a, answers (getEnrol getUser getToken enrolInCourse createSandbox course
                  : list Ev) = [a]
       ∧ ∀ e, a = Next e →
              getUser = Throws e ∨ getToken = Throws e
              ∨ ∃ user, getUser = Returns user
                        ∧ enrolInCourse course user = Throws e.
Proof.
  unfold getEnrol. destruct getUser as [user|e1]; cbn;
    [|eexists; split; [done|]; naive_solver].
  destruct getToken as [token|e2]; cbn;
    [|eexists; split; [done|]; naive_solver].
  destruct (enrolInCourse course user) as [en|e3] eqn:Hen; cbn;
    [|eexists; split; [done|]; naive_solver].
  destruct (cp_props (en_course en) !! "usecase") as [uc0|]; cbn;
    [destruct (decide (uc0 = "")) as [->|Hne]; cbn;
     [|destruct (createSandbox token uc0) as [sb|err]; cbn]|];
    (eexists; split; [done|]; naive_solver).
Qed.

(** X9: the browser route answers exactly once, whatever the collaborators
    return or throw. *)
Theorem getBrowser_answers_once
    (getUser : outcome (option AuthUser)) (getToken : outcome Token)
    getCourseWithProgress createSandbox getSandboxForUseCase course :
  ∃ a, answers (getBrowser getUser getToken getCourseWithProgress
                  createSandbox getSandboxForUseCase course : list Ev) = [a].
Proof.
  unfold getBrowser. destruct getToken as [token|]; cbn; [|by eexists].
  destruct getUser as [user|]; cbn; [|by eexists].
  destruct (getCourseWithProgress course user) as [c|]; cbn; [|by eexists].
  case_decide; cbn; [by eexists|].
  destruct (cp_props c !! "usecase") as [uc|]; cbn; [|by eexists].
  case_decide; cbn; [by eexists|].
  destruct (getSandboxForUseCase token uc) as [[sb|]|]; cbn; [by eexists| |by eexists].
  destruct (createSandbox token uc) as [[sb|]|]; cbn; by eexists.
Qed.

(** X10: in the browser route a learner who is not enrolled is sent to the
    course page and nothing else happens; a sandbox is created exactly when
    the learner is not marked as not enrolled, the course has a non-empty
    use case and no sandbox exists for it yet. *)
Theorem getBrowser_sandbox
    (getUser : outcome (option AuthUser)) (getToken : outcome Token)
    getCourseWithProgress createSandbox getSandboxForUseCase
    course token user c :
  getToken = Returns token → getUser = Returns user →
  getCourseWithProgress course user = Returns c →
  (cp_enrolled c = Some false →
     (getBrowser getUser getToken getCourseWithProgress createSandbox
        getSandboxForUseCase course : list Ev)
     = [Redirect ("/courses/" +:+ course)])
  ∧ ∀ uc, CreateSandbox uc
            ∈ (getBrowser getUser getToken getCourseWithProgress createSandbox
                 getSandboxForUseCase course : list Ev)
          ↔ cp_enrolled c ≠ Some false
            ∧ cp_props c !! "usecase" = Some uc ∧ uc ≠ ""
            ∧ getSandboxForUseCase token uc = Returns None.
Proof.
  intros -> -> Hc. unfold getBrowser. cbn. rewrite Hc. cbn. split.
  - intros He. by rewrite decide_True.
  - intros uc. destruct (decide (cp_enrolled c = Some false)) as [He|He]; cbn;
      [|destruct (cp_props c !! "usecase") as [uc0|]; cbn;
        [destruct (decide (uc0 = "")) as [Hu|Hu]; cbn;
         [|destruct (getSandboxForUseCase token uc0) as [[sb|]|] eqn:Hsb; cbn;
           [|destruct (createSandbox token uc0) as [[sb|]|]; cbn|]]|]];
      rewrite ?elem_of_cons, ?elem_of_nil;
      (split;
       [intros Hin; repeat (destruct Hin as [Hin|Hin]); by simplify_eq
       |intros (? & ? & ? & ?); simplify_eq; try congruence; auto]).
Qed.

(** X11: the module route, once the user and the course are there.  For a
    module the course has there is the one answer, computed from the
    parameters of the route.  For a module the course does not have, [next]
    gets the [NotFoundError] and the handler goes on all the same, now with
    the parameters the router has put back: the conversion is asked for
    those, and a second answer follows, the page rendered without a module
    or the error of the conversion.  A [classes] property of the module
    replaces the [classes] computed for the page. *)
Theorem getModule_answers
    (getUser : outcome (option AuthUser)) getCourseWithProgress
    convertModuleOverview course module restored path user c :
  getUser = Returns user → getCourseWithProgress course user = Returns c →
  answers (getModule getUser getCourseWithProgress convertModuleOverview
             course module restored path : list Ev)
  = match findBySlug (λ m, m_props m !! "slug") module (cp_modules c) with
    | Some m =>
        [match convertModuleOverview (Some course) (Some module) with
         | Returns doc =>
             Render "course/module"
               (ModulePage ("module " +:+ course +:+ "-" +:+ module)
                  (Some m) path c doc)
         | Throws e => Next e
         end]
    | None =>
        [Next (NotFoundError ("Could not find module " +:+ module
                                +:+ " of " +:+ course));
         match convertModuleOverview (p_course restored) (p_module restored)
         with
         | Returns doc =>
             Render "course/module"
               (ModulePage ("module " +:+ tpl (p_course restored) +:+ "-"
                              +:+ tpl (p_module restored))
                  None path c doc)
         | Throws e => Next e
         end]
    end
  ∧ ∀ view locals,
      Render view locals
        ∈ (getModule getUser getCourseWithProgress convertModuleOverview
             course module restored path : list Ev) →
      classesOf locals
      = Some match findBySlug (λ m, m_props m !! "slug") module
                     (cp_modules c) with
             | Some m =>
                 default ("module " +:+ course +:+ "-" +:+ module)
                         (m_props m !! "classes")
             | None =>
                 "module " +:+ tpl (p_course restored) +:+ "-"
                   +:+ tpl (p_module restored)
             end.
Proof.
  intros -> Hc. unfold getModule. cbn. rewrite Hc. cbn.
  destruct (findBySlug _ module (cp_modules c)) as [m|]; cbn.
  - destruct (convertModuleOverview (Some course) (Some module)); cbn;
      (split; [done|]); intros view locals Hin;
      rewrite ?elem_of_cons, ?elem_of_nil in Hin;
      destruct_or!; by simplify_eq.
  - destruct (convertModuleOverview (p_course restored) (p_module restored));
      cbn; (split; [done|]); intros view locals Hin;
      rewrite ?elem_of_cons, ?elem_of_nil in Hin;
      destruct_or!; by simplify_eq.
Qed.

(** X12: the lesson route renders only when everything is there (a user, the
    course, the module in the course, the lesson in the module, the
    converted text), and then the rendering of that lesson in that module is
    all it does. *)
Theorem getLesson_renders
    (getUser : outcome (option AuthUser)) given_name getCourseWithProgress
    convertLessonOverview course module lesson restored path view locals :
  Render view locals
    ∈ (getLesson getUser given_name getCourseWithProgress
         convertLessonOverview course module lesson restored path : list Ev)
  ↔ ∃ au c m l doc,
      getUser = Returns (Some au)
      ∧ getCourseWithProgress course (Some au) = Returns c
      ∧ findBySlug (λ m, m_props m !! "slug") module (cp_modules c) = Some m
      ∧ findBySlug (λ l, l_props l !! "slug") lesson (m_lessons m) = Some l
      ∧ convertLessonOverview (Some course) (Some module) (Some lesson)
          (given_name au)
        = Returns doc
      ∧ (getLesson getUser given_name getCourseWithProgress
           convertLessonOverview course module lesson restored path : list Ev)
        = [Render view locals]
      ∧ view = "course/lesson"
      ∧ locals
        = LessonPage
            ("lesson " +:+ course +:+ "-" +:+ module +:+ "-" +:+ lesson
               +:+ " "
               +:+ (if l_completed l then "lesson--completed" else ""))
            (Some l) path c (Some m) doc.
Proof.
  unfold getLesson. split.
  - destruct getUser as [user|e1]; cbn;
      [|rewrite ?elem_of_cons, ?elem_of_nil; naive_solver].
    destruct (getCourseWithProgress course user) as [c|e2] eqn:Hc; cbn;
      [|rewrite ?elem_of_cons, ?elem_of_nil; naive_solver].
    destruct (findBySlug _ module (cp_modules c)) as [m|] eqn:Hm; cbn;
      [|rewrite ?elem_of_cons, ?elem_of_nil; naive_solver].
    destruct (findBySlug _ lesson (m_lessons m)) as [l|] eqn:Hl; cbn.
    + destruct user as [au|]; cbn;
        [|rewrite ?elem_of_cons, ?elem_of_nil; naive_solver].
      destruct (convertLessonOverview (Some course) (Some module)
                  (Some lesson) (given_name au))
        as [doc|e3] eqn:Hdoc; cbn;
        [|rewrite ?elem_of_cons, ?elem_of_nil; naive_solver].
      rewrite ?elem_of_cons, ?elem_of_nil. intros [[= -> ->]|[]].
      exists au, c, m, l, doc. by rewrite Hc.
    + destruct user as [au|]; cbn;
        [|rewrite ?elem_of_cons, ?elem_of_nil; naive_solver].
      destruct (convertLessonOverview (p_course restored) (p_module restored)
                  (p_lesson restored) (given_name au));
        cbn; rewrite ?elem_of_cons, ?elem_of_nil; naive_solver.
  - intros (au & c & m & l & doc & -> & Hc & Hm & Hl & Hdoc & Htr & _).
    rewrite Htr. left.
Qed.

(** X13: the lesson route, once the user and the course are there.  For a
    module the course does not have [next] is called twice, first with the
    [NotFoundError], then with the [TypeError] of reading the lessons of
    nothing.  For a lesson the module does not have [next] gets the
    [NotFoundError] and the handler goes on with the parameters the router
    has put back: the conversion is asked for those, and [next] is called a
    second time, with the [TypeError] of a missing user, the error of the
    conversion, or the [TypeError] of reading [completed] of nothing.
    Nothing is rendered in either case. *)
Theorem getLesson_missing
    (getUser : outcome (option AuthUser)) given_name getCourseWithProgress
    convertLessonOverview course module lesson restored path user c :
  getUser = Returns user → getCourseWithProgress course user = Returns c →
  (findBySlug (λ m, m_props m !! "slug") module (cp_modules c) = None →
     answers (getLesson getUser given_name getCourseWithProgress
                convertLessonOverview course module lesson restored path
                : list Ev)
     = [Next (NotFoundError ("Could not find module " +:+ module +:+ " of "
                               +:+ course));
        Next TypeError])
  ∧ (∀ m, findBySlug (λ m, m_props m !! "slug") module (cp_modules c) = Some m →
          findBySlug (λ l, l_props l !! "slug") lesson (m_lessons m) = None →
          answers (getLesson getUser given_name getCourseWithProgress
                     convertLessonOverview course module lesson restored path
                     : list Ev)
          = [Next (NotFoundError ("Could not find lesson " +:+ lesson
                                    +:+ " in module " +:+ module +:+ " of "
                                    +:+ course));
             Next match user with
                  | None => TypeError
                  | Some au =>
                      match convertLessonOverview (p_course restored)
                              (p_module restored) (p_lesson restored)
                              (given_name au) with
                      | Returns _ => TypeError
                      | Throws e => e
                      end
                  end]).
Proof.
  intros -> Hc. unfold getLesson. cbn. rewrite Hc. cbn. split.
  - by intros ->.
  - intros m -> Hl. cbn. rewrite Hl. cbn.
    destruct user as [au|]; cbn; [|done].
    by destruct (convertLessonOverview (p_course restored)
                   (p_module restored) (p_lesson restored) (given_name au)).
Qed.

(** X14: the category route, once the user and the categories are there:
    the answer is the [NotFoundError] exactly when no flattened category has
    the slug; otherwise it is the list page of the first category with the
    slug, with a third breadcrumb that leads to [/categories/slug/] and a
    banner image right under that link. *)
Theorem getCategory_answers
    (getUser : outcome (option AuthUser)) getCoursesByCategory
    (flattenCategories : Categories → list Category)
    (groupCoursesByStatus : list CourseWithProgress → Grouped) slug
    user categories :
  getUser = Returns user → getCoursesByCategory user = Returns categories →
  ((getCategory getUser getCoursesByCategory flattenCategories
      groupCoursesByStatus slug : list Ev)
   = [Next (NotFoundError ("Category with slug " +:+ slug
                             +:+ " could not be found"))]
   ↔ ∀ cat, cat ∈ flattenCategories categories → cat_slug cat ≠ Some slug)
  ∧ ∀ cat, findBySlug cat_slug slug (flattenCategories categories) = Some cat →
           cat_slug cat = Some slug
           ∧ ∃ title hero ogTitle ogDescription,
               (getCategory getUser getCoursesByCategory flattenCategories
                  groupCoursesByStatus slug : list Ev)
               = [Render "course/list"
                    (ListPage title (Some slug) categories (Some cat)
                       (cat_courses cat)
                       (groupCoursesByStatus (default [] (cat_courses cat)))
                       hero ogTitle ogDescription
                       (("/categories/" +:+ slug +:+ "/") +:+ "banner")
                       (breadcrumbs
                          ++ [ {| bc_link := "/categories/" +:+ slug +:+ "/";
                                  bc_text := cat_title cat |} ]))].
Proof.
  intros -> Hcat. unfold getCategory. cbn. rewrite Hcat. cbn. split.
  - destruct (findBySlug _ slug (flattenCategories categories)) as [cat|]
      eqn:Hfind; cbn.
    + split; [done|]. intros Hall. exfalso.
      apply findBySlug_Some in Hfind as [Hin Hslug]. by apply (Hall cat).
    + split; [|done]. intros _ cat Hin Hslug.
      unfold findBySlug in Hfind. apply head_None in Hfind.
      by eapply (filter_nil_not_elem_of _ _ cat Hfind).
  - intros cat Hfind. rewrite Hfind. cbn.
    apply findBySlug_Some in Hfind as [_ Hslug].
    split; [done|]. rewrite Hslug. cbn.
    do 4 eexists. rewrite !append_assoc. reflexivity.
Qed.

End RouteFacts.

(** * Properties of the category list and of start-up *)

Lemma uniqueCourses_acc_prefix (flattened : list Category) acc :
  acc `prefix_of`
    foldl (λ acc category,
             acc ++ filter (λ item, cp_props item !! "slug"
                                      ∉ (λ row, cp_props row !! "slug") <$> acc)
                           (default [] (cat_courses category)))
          acc flattened.
Proof.
  revert acc. induction flattened as [|cat fl IH]; intros acc; cbn; [done|].
  etrans; [|apply IH]. by apply prefix_app_r.
Qed.

Lemma uniqueCourses_acc_elem (flattened : list Category) acc item :
  item ∈ foldl (λ acc category,
                  acc ++ filter (λ item, cp_props item !! "slug"
                                           ∉ (λ row, cp_props row !! "slug")
                                               <$> acc)
                                (default [] (cat_courses category)))
               acc flattened →
  item ∈ acc
  ∨ ∃ cat, cat ∈ flattened ∧ item ∈ default [] (cat_courses cat).
Proof.
  revert acc. induction flattened as [|cat fl IH]; intros acc; cbn; [by left|].
  intros [Hin|(cat' & Hcat & Hin)]%IH.
  - apply elem_of_app in Hin as [Hin|Hin]; [by left|].
    apply list_elem_of_filter in Hin as [_ Hin].
    right. exists cat. split; [left|done].
  - right. exists cat'. split; [by right|done].
Qed.

Lemma uniqueCourses_acc_slugs (flattened : list Category) acc s :
  s ∈ (λ row, cp_props row !! "slug")
        <$> foldl (λ acc category,
                     acc ++ filter (λ item, cp_props item !! "slug"
                                              ∉ (λ row, cp_props row !! "slug")
                                                  <$> acc)
                                   (default [] (cat_courses category)))
                  acc flattened
  ↔ s ∈ (λ row, cp_props row !! "slug") <$> acc
    ∨ ∃ cat item, cat ∈ flattened ∧ item ∈ default [] (cat_courses cat)
                  ∧ cp_props item !! "slug" = s.
Proof.
  revert acc. induction flattened as [|cat fl IH]; intros acc; cbn.
  { split; [by left|]. intros [?|(cat & item & Hin & _)]; [done|].
    by apply elem_of_nil in Hin. }
  rewrite IH, fmap_app, elem_of_app. split.
  - intros [[?|Hin]|(cat' & item & Hcat & Hin & Hs)].
    + by left.
    + apply list_elem_of_fmap in Hin as (item & -> & Hin).
      apply list_elem_of_filter in Hin as [_ Hin].
      right. exists cat, item. split; [left|done].
    + right. exists cat', item. split; [by right|done].
  - intros [?|(cat' & item & Hcat & Hin & Hs)]; [by left; left|].
    apply elem_of_cons in Hcat as [->|Hcat].
    + destruct (decide (s ∈ (λ row, cp_props row !! "slug") <$> acc))
        as [Hacc|Hacc]; [by left; left|].
      left; right. apply list_elem_of_fmap. exists item. split; [done|].
      apply list_elem_of_filter. split; [by rewrite Hs|done].
    + right. by exists cat', item.
Qed.

Lemma uniqueCourses_acc_NoDup (flattened : list Category) acc :
  NoDup ((λ row, cp_props row !! "slug") <$> acc) →
  (∀ cat, cat ∈ flattened →
          NoDup ((λ row, cp_props row !! "slug")
                   <$> default [] (cat_courses cat))) →
  NoDup ((λ row, cp_props row !! "slug")
           <$> foldl (λ acc category,
                        acc ++ filter (λ item, cp_props item !! "slug"
                                                 ∉ (λ row, cp_props row !! "slug")
                                                     <$> acc)
                                      (default [] (cat_courses category)))
                     acc flattened).
Proof.
  revert acc. induction flattened as [|cat fl IH]; intros acc Hacc Hall; cbn;
    [done|].
  apply IH; [|intros cat' Hin; apply Hall; by right].
  rewrite fmap_app. apply NoDup_app. split; [done|]. split.
  - intros s Hs Hin. apply list_elem_of_fmap in Hin as (item & -> & Hin).
    by apply list_elem_of_filter in Hin as [Hnot _].
  - specialize (Hall cat (ltac:(left))).
    revert Hall. generalize (default [] (cat_courses cat)). intros l.
    induction l as [|x l IHl]; [done|].
    rewrite fmap_cons. intros [Hx Hl]%NoDup_cons.
    rewrite filter_cons. case_decide; [|auto].
    rewrite fmap_cons. apply NoDup_cons. split; [|auto].
    intros Hin. apply Hx. apply list_elem_of_fmap in Hin as (y & Hy & Hin).
    apply list_elem_of_filter in Hin as [_ Hin].
    apply list_elem_of_fmap. by exists y.
Qed.

(** X15: the courses of the list page are taken from the categories and
    cover every slug a category lists; the courses of the first category are
    kept as they are, in front, a slug repeated inside that category
    included. *)
Theorem uniqueCourses_covers (flattened : list Category) :
  (∀ item, item ∈ uniqueCourses flattened →
           ∃ cat, cat ∈ flattened ∧ item ∈ default [] (cat_courses cat))
  ∧ (∀ s, s ∈ (λ row, cp_props row !! "slug") <$> uniqueCourses flattened
          ↔ ∃ cat item, cat ∈ flattened
                        ∧ item ∈ default [] (cat_courses cat)
                        ∧ cp_props item !! "slug" = s)
  ∧ ∀ cat rest, flattened = cat :: rest →
                default [] (cat_courses cat) `prefix_of` uniqueCourses flattened.
Proof.
  unfold uniqueCourses. split; [|split].
  - intros item [Hin|?]%uniqueCourses_acc_elem; [|done].
    by apply elem_of_nil in Hin.
  - intros s. rewrite uniqueCourses_acc_slugs. split; [|by right].
    intros [Hin|?]; [|done]. by apply elem_of_nil in Hin.
  - intros cat rest ->. cbn.
    etrans; [|apply uniqueCourses_acc_prefix].
    generalize (default [] (cat_courses cat)).
    intros l. induction l as [|x l IH]; [done|].
    rewrite filter_cons_True by (intros Hin; by apply elem_of_nil in Hin).
    by apply prefix_cons.
Qed.

(** X16: when no category lists a slug twice, no slug is listed twice on
    the list page. *)
Theorem uniqueCourses_NoDup (flattened : list Category) :
  (∀ cat, cat ∈ flattened →
          NoDup ((λ row, cp_props row !! "slug")
                   <$> default [] (cat_courses cat))) →
  NoDup ((λ row, cp_props row !! "slug") <$> uniqueCourses flattened).
Proof.
  intros Hall. apply uniqueCourses_acc_NoDup; [constructor|done].
Qed.

(** An event of a trace that is written out is one of its entries. *)
Ltac in_trace H :=
  rewrite ?elem_of_cons, ?elem_of_nil in H; destruct_or?; simplify_eq.

(** Start-up on a path where a step before [listen] has failed. *)
Ltac fails_before_listen :=
  split; [eexists _, []; split; [by eexists|right; by eexists]|];
  split; [split; [intros (port & Hin); by in_trace Hin
                 |intros (? & ? & ? & ? & ? & ?); congruence]|];
  split; [split; [intros Hin; by in_trace Hin
                 |intros (? & ? & ? & ? & ? & ?); congruence]|];
  split; [|assumption];
  split; [intros _ (? & ? & ? & ? & ? & ? & ? & ? & ? & ? & ? & ?);
          congruence
         |intros _; rewrite ?elem_of_cons; by auto 10].

(** Start-up on a path where [listen] or a merge has failed, after the
    steps [started]. *)
Ltac fails_after started :=
  split; [eexists _, started; split; [by eexists|right; by eexists]|];
  split; [split; [intros _; by repeat eexists
                 |intros _; eexists; right; left]|];
  split; [split; [intros _; by repeat eexists|intros _; right; left]|];
  split; [|assumption];
  split; [intros _ (? & ? & ? & ? & ? & ? & ? & ? & ? & ? & ? & ?);
          congruence
         |intros _; rewrite ?elem_of_cons; by auto 10].

(** X17: after its first line, start-up calls [listen], [mergeCategories]
    and [mergeCourses] in this order as far as it gets, and either gets
    through all three or logs the first failure and closes, after what it
    had started.  It calls [listen] exactly when the driver, the
    application and the listeners were set up, with port 3000 when [PORT]
    is unset or empty; it closes exactly when one of the six steps fails, a
    failure of [listen] or of a merge included. *)
Theorem main_listens_then_merges {Driver App : Type}
    (NEO4J_HOST NEO4J_USERNAME NEO4J_PASSWORD PORT : option string)
    (initNeo4j : option string → option string → option string → outcome Driver)
    (initApp : Driver → outcome App) (initListeners : App → outcome unit)
    (listen : App → Port → outcome unit)
    (mergeCategories mergeCourses : outcome unit) :
  let trace := main NEO4J_HOST NEO4J_USERNAME NEO4J_PASSWORD PORT
                 initNeo4j initApp initListeners listen mergeCategories
                 mergeCourses in
  let steps := [Listen (portOf PORT); MergeCategories; MergeCourses] in
  let set_up :=
    ∃ driver app u,
      initNeo4j NEO4J_HOST NEO4J_USERNAME NEO4J_PASSWORD = Returns driver
      ∧ initApp driver = Returns app ∧ initListeners app = Returns u in
  (∃ log started,
     started `prefix_of` steps
     ∧ (trace = log :: started ∧ started = steps
        ∨ ∃ e, trace = log :: started ++ [ConsoleError e; Close]))
  ∧ ((∃ port, Listen port ∈ trace) ↔ set_up)
  ∧ (Listen (portOf PORT) ∈ trace ↔ set_up)
  ∧ (Close ∈ trace
     ↔ ¬ ∃ driver app u v w x,
           initNeo4j NEO4J_HOST NEO4J_USERNAME NEO4J_PASSWORD = Returns driver
           ∧ initApp driver = Returns app ∧ initListeners app = Returns u
           ∧ listen app (portOf PORT) = Returns v
           ∧ mergeCategories = Returns w ∧ mergeCourses = Returns x)
  ∧ (portOf PORT = Port3000 ↔ PORT = None ∨ PORT = Some "").
Proof.
  intros trace steps set_up. subst trace steps set_up.
  assert (portOf PORT = Port3000 ↔ PORT = None ∨ PORT = Some "") as Hport.
  { unfold portOf. destruct PORT as [s|].
    - destruct (decide (s = "")) as [->|Hne].
      + split; [by right|done].
      + split; [done|]. intros [?|?]; by simplify_eq.
    - split; [by left|done]. }
  unfold main, failed.
  destruct (initNeo4j _ _ _) as [driver|e] eqn:H1;
    [destruct (initApp driver) as [app|e] eqn:H2;
     [destruct (initListeners app) as [u|e] eqn:H3;
      [destruct (listen app (portOf PORT)) as [v|e] eqn:H4;
       [destruct mergeCategories as [w|e] eqn:H5;
        [destruct mergeCourses as [x|e] eqn:H6|]|]|]|]|].
  - split; [|split; [|split; [|split; [|exact Hport]]]].
    + eexists _, _. split; [done|]. by left.
    + split; [intros _; by exists driver, app, u|].
      intros _. eexists. right; left.
    + split; [intros _; by exists driver, app, u|]. intros _. right; left.
    + split; [intros Hin; by in_trace Hin|].
      intros Hno. destruct Hno. by exists driver, app, u, v, w, x.
  - fails_after [Listen (portOf PORT); MergeCategories; MergeCourses].
  - fails_after [Listen (portOf PORT); MergeCategories].
  - fails_after [Listen (portOf PORT)].
  - fails_before_listen.
  - fails_before_listen.
  - fails_before_listen.
Qed.

(** ** The routes on the example site *)

Lemma getEnrol_redirects_witness :
  answers (getEnrol (Returns (Some Site.learner)) (Returns "token")
             (λ _ _, Returns Site.enrolment) Site.failingSandbox "c1"
             : list (@Event string (list CourseWithProgress) (list Category)))
  = [Redirect "/courses/c1/m2"]
  ∧ ∀ uc, CreateSandbox uc
            ∈ (getEnrol (Returns (Some Site.learner)) (Returns "token")
                 (λ _ _, Returns Site.enrolment) Site.failingSandbox "c1"
                 : list (@Event string (list CourseWithProgress)
                           (list Category)))
          ↔ cp_props (en_course Site.enrolment) !! "usecase" = Some uc
            ∧ uc ≠ "".
Proof.
  destruct (getEnrol_redirects (Doc := string) (Grouped := list CourseWithProgress)
           (Categories := list Category) (Returns (Some Site.learner)) (Returns "token")
              (λ _ _, Returns Site.enrolment) Site.failingSandbox "c1"
              (Some Site.learner) "token" Site.enrolment
              eq_refl eq_refl eq_refl) as [Hanswer Hsandbox].
  split; [|exact Hsandbox].
  etrans; [exact Hanswer|]. vm_compute. reflexivity.
Defined.

Lemma getBrowser_sandbox_witness :
  CreateSandbox "movies"
    ∈ (getBrowser (Returns (Some Site.learner)) (Returns "token")
         Site.getCourseWithProgress Site.newSandbox Site.noSandbox "c1"
         : list (@Event string (list CourseWithProgress) (list Category))).
Proof.
  apply (getBrowser_sandbox (Doc := string) (Grouped := list CourseWithProgress)
           (Categories := list Category) (Returns (Some Site.learner)) (Returns "token")
           Site.getCourseWithProgress Site.newSandbox Site.noSandbox "c1"
           "token" (Some Site.learner) Site.course);
    try reflexivity.
  repeat split; done.
Defined.

Lemma getModule_answers_witness :
  answers (getModule (Returns (Some Site.learner))
             Site.getCourseWithProgress Site.convert "c1" "m9" Site.unset
             "/courses/c1/m9"
             : list (@Event string (list CourseWithProgress) (list Category)))
  = [Next (NotFoundError "Could not find module m9 of c1");
     Render "course/module"
       (ModulePage "module undefined-undefined" None "/courses/c1/m9"
          Site.course "undefined/undefined")].
Proof.
  destruct (getModule_answers (Doc := string)
              (Grouped := list CourseWithProgress)
              (Categories := list Category) (Returns (Some Site.learner))
              Site.getCourseWithProgress Site.convert "c1" "m9" Site.unset
              "/courses/c1/m9" (Some Site.learner) Site.course
              eq_refl eq_refl) as [Hanswers _].
  etrans; [exact Hanswers|]. vm_compute. reflexivity.
Defined.

Lemma getLesson_missing_witness :
  answers (getLesson (Returns (Some Site.learner)) u_givenName
             Site.getCourseWithProgress Site.convertLesson "c1" "m9" "a"
             Site.unset "/courses/c1/m9/a"
             : list (@Event string (list CourseWithProgress) (list Category)))
  = [Next (NotFoundError "Could not find module m9 of c1"); Next TypeError]
  ∧ answers (getLesson (Returns (Some Site.learner)) u_givenName
               Site.getCourseWithProgress Site.convertLesson "c1" "m1" "z"
               Site.unset "/courses/c1/m1/z"
               : list (@Event string (list CourseWithProgress)
                         (list Category)))
    = [Next (NotFoundError "Could not find lesson z in module m1 of c1");
       Next (Failure "no lesson")].
Proof.
  destruct (getLesson_missing (Doc := string)
              (Grouped := list CourseWithProgress)
              (Categories := list Category) (Returns (Some Site.learner))
              u_givenName Site.getCourseWithProgress Site.convertLesson
              "c1" "m9" "a" Site.unset "/courses/c1/m9/a"
              (Some Site.learner) Site.course eq_refl eq_refl)
    as [Hmodule _].
  destruct (getLesson_missing (Doc := string)
              (Grouped := list CourseWithProgress)
              (Categories := list Category) (Returns (Some Site.learner))
              u_givenName Site.getCourseWithProgress Site.convertLesson
              "c1" "m1" "z" Site.unset "/courses/c1/m1/z"
              (Some Site.learner) Site.course eq_refl eq_refl)
    as [_ Hlesson].
  split; [by apply Hmodule|].
  etrans; [eapply Hlesson; reflexivity|]. reflexivity.
Defined.

Lemma getCategory_answers_witness :
  (getCategory (Returns (Some Site.learner)) (λ _, Returns Site.categories)
     id id "nowhere"
     : list (@Event string (list CourseWithProgress) (list Category)))
  = [Next (NotFoundError "Category with slug nowhere could not be found")].
Proof.
  apply (getCategory_answers (Doc := string) (Returns (Some Site.learner))
           (λ _, Returns Site.categories) id id "nowhere"
           (Some Site.learner) Site.categories eq_refl eq_refl).
  intros cat Hin. unfold Site.categories in Hin. cbn in Hin.
  repeat (apply elem_of_cons in Hin as [->|Hin]);
    [done|done|by apply elem_of_nil in Hin].
Defined.

Lemma uniqueCourses_NoDup_witness :
  NoDup ((λ row, cp_props row !! "slug") <$> uniqueCourses Site.categories).
Proof.
  apply (uniqueCourses_NoDup Site.categories).
  intros cat Hin. unfold Site.categories in Hin.
  repeat (apply elem_of_cons in Hin as [->|Hin]);
    [| |by apply elem_of_nil in Hin];
    apply (bool_decide_unpack _); vm_compute; exact I.
Defined.
